(** * The study page of infoman-quizzer: card markup and review session

    A shallow embedding of the study page script: the table sub-parser
    [parseTableData], the markup renderer [renderContent] (driven by the
    regular expression [blockRegex]), the shuffle [shuffleArray] and the
    review flow [loadCard], [handleActionClick], [handleRatingClick],
    [initializeStudySession].

    Layout: Part I holds the definitions, Part II the lemmas and theorems,
    Part III further properties of the script. *)

From Stdlib Require Import String Ascii.
From Stdlib Require Import List NArith Arith Bool Lia Permutation.
Import ListNotations.

Set Implicit Arguments.

(* ================================================================== *)
(** * Part I. Definitions *)
(* ================================================================== *)

(** ** JavaScript strings

    A JavaScript string is a sequence of UTF-16 code units; a code unit is
    modelled as a natural number [N]. *)

Module JS.

Definition char := N.
Definition str := list char.

(** Literals: the code units of an ASCII literal. *)
Definition lit (s : string) : str :=
  map N_of_ascii (list_ascii_of_string s).

Definition LF : char := 10%N.
Definition TAB : char := 9%N.
Definition SPACE : char := 32%N.
Definition PIPE : char := 124%N.
Definition BACKTICK : char := 96%N.

(** Truthiness of a string: only the empty string is falsy. *)
Definition truthy (s : str) : bool :=
  match s with [] => false | _ :: _ => true end.

(** [WhiteSpace] and [LineTerminator] code points of ECMAScript: the set that
    [String.prototype.trim] strips and that [\s] matches. *)
Definition isWhiteSpace (c : char) : bool :=
  ((9 <=? c) && (c <=? 13) || (c =? 32) || (c =? 160) || (c =? 5760)
   || (8192 <=? c) && (c <=? 8202) || (c =? 8232) || (c =? 8233)
   || (c =? 8239) || (c =? 8287) || (c =? 12288) || (c =? 65279))%N.

Fixpoint trimStart (s : str) : str :=
  match s with
  | [] => []
  | c :: s' => if isWhiteSpace c then trimStart s' else s
  end.

Definition trimEnd (s : str) : str := rev (trimStart (rev s)).

(** [s.trim()] *)
Definition trim (s : str) : str := trimEnd (trimStart s).

(** [s.split(sep)] for a one-character separator: the pieces between the
    occurrences of [sep]; never an empty array (the empty string gives one
    empty piece).  [split1] returns the first piece and the others. *)
Fixpoint split1 (sep : char) (s : str) : str * list str :=
  match s with
  | [] => ([], [])
  | c :: s' =>
      let (p, ps) := split1 sep s' in
      if (c =? sep)%N then ([], p :: ps) else (c :: p, ps)
  end.

Definition split (sep : char) (s : str) : list str :=
  let (p, ps) := split1 sep s in p :: ps.

(** [s.startsWith(p)] *)
Fixpoint startsWith (p s : str) : bool :=
  match p, s with
  | [], _ => true
  | _ :: _, [] => false
  | a :: p', c :: s' => (a =? c)%N && startsWith p' s'
  end.

(** [s.endsWith(p)] *)
Definition endsWith (p s : str) : bool := startsWith (rev p) (rev s).

(** [s.substring(a, b)]: the arguments are clamped to the length and swapped
    when [a > b]. *)
Definition substring (a b : nat) (s : str) : str :=
  let a' := Nat.min a (length s) in
  let b' := Nat.min b (length s) in
  let lo := Nat.min a' b' in
  let hi := Nat.max a' b' in
  firstn (hi - lo) (skipn lo s).

(** Lower-casing of one code unit.  Only the ASCII letters are mapped: the
    script lower-cases the tag parameter, which the block expression
    restricts to [a-zA-Z0-9_-], and the start of a code body that it then
    compares with the ASCII text [sql ]; no code unit outside ASCII
    lower-cases to one of [s], [q], [l] or the space. *)
Definition lowerChar (c : char) : char :=
  if ((65 <=? c) && (c <=? 90))%N then (c + 32)%N else c.

(** [s.toLowerCase()] *)
Definition toLowerCase (s : str) : str := map lowerChar s.

(** Equality of strings, [===]. *)
Fixpoint eqb (a b : str) : bool :=
  match a, b with
  | [], [] => true
  | x :: a', y :: b' => (x =? y)%N && eqb a' b'
  | _, _ => false
  end.

End JS.

Import JS.

(** ** The table sub-parser *)

(** [tableContent.trim().split('\n').filter(line => line.trim())] *)
Definition table_lines (tableContent : str) : list str :=
  filter (fun line => truthy (trim line)) (split LF (trim tableContent)).

(** [line.split('|').map(c => c.trim())] *)
Definition cells (line : str) : list str := map trim (split PIPE line).

(** [while (rowData.length < headers.length) rowData.push('')]; the loop
    runs at most [headers.length] times, which is the fuel given to it by
    [parseTableData]. *)
Fixpoint pad_loop (fuel : nat) (hlen : nat) (rowData : list str) : list str :=
  match fuel with
  | 0 => rowData
  | S fuel' =>
      if length rowData <? hlen then pad_loop fuel' hlen (rowData ++ [[]])
      else rowData
  end.

(** The body of [for (let i = 2; i < lines.length; i++)], over the lines from
    the third on, with the rows pushed so far. *)
Fixpoint rows_loop (headers : list str) (ls : list str)
  (rows : list (list str)) : list (list str) :=
  match ls with
  | [] => rows
  | line :: ls' =>
      let rowData := pad_loop (length headers) (length headers) (cells line) in
      rows_loop headers ls' (rows ++ [rowData])
  end.

Record TableData := mkTable { headers : list str; rows : list (list str) }.

(** [parseTableData]: [None] is the [null] result. *)
Definition parseTableData (tableContent : str) : option TableData :=
  let lines := table_lines tableContent in
  if length lines <? 2 then None
  else
    let headers := cells (nth 0 lines []) in
    Some (mkTable headers (rows_loop headers (skipn 2 lines) [])).

(** ** Backtracking matching

    The pieces of the script's regular expressions, in continuation-passing
    style: a piece consumes a prefix of the input and hands the rest (and
    what it captured) to the continuation [k], which matches the remainder
    of the expression; when [k] fails the piece tries its next alternative,
    in the order of a backtracking matcher.  Expressions without the [u]
    flag work on code units. *)

Module Regex.

Section Pieces.
Variable R : Type.

(** A literal text. *)
Fixpoint literal (p : str) (s : str) (k : str -> option R) : option R :=
  match p with
  | [] => k s
  | a :: p' =>
      match s with
      | c :: s' => if (a =? c)%N then literal p' s' k else None
      | [] => None
      end
  end.

(** [[cls]+], greedy: one character of the class or more; the longest run
    is tried first, then one character less. *)
Fixpoint plus_greedy (cls : char -> bool) (s : str) (taken : str)
  (k : str -> str -> option R) : option R :=
  match s with
  | c :: s' =>
      if cls c then
        match plus_greedy cls s' (taken ++ [c]) k with
        | Some r => Some r
        | None => k (taken ++ [c]) s'
        end
      else None
  | [] => None
  end.

(** [.*?] under the [s] flag, lazy: any code units; the empty text is tried
    first, then one code unit more. *)
Fixpoint star_lazy (s : str) (taken : str)
  (k : str -> str -> option R) : option R :=
  match k taken s with
  | Some r => Some r
  | None =>
      match s with
      | c :: s' => star_lazy s' (taken ++ [c]) k
      | [] => None
      end
  end.

(** [(?: ... )?], greedy: the group is tried first, then its absence. *)
Definition optional (present absent : option R) : option R :=
  match present with
  | Some r => Some r
  | None => absent
  end.

End Pieces.

(** [[A-Z]] *)
Definition isUpper (c : char) : bool := ((65 <=? c) && (c <=? 90))%N.

(** [[a-zA-Z0-9_\-]] *)
Definition isParamChar (c : char) : bool :=
  ((97 <=? c) && (c <=? 122) || (65 <=? c) && (c <=? 90)
   || (48 <=? c) && (c <=? 57) || (c =? 95) || (c =? 45))%N.

(** [[^`]] *)
Definition notBacktick (c : char) : bool := negb (c =? BACKTICK)%N.

(** The text a match consumed: the input up to where the rest begins. *)
Definition consumed (s rest : str) : str :=
  firstn (length s - length rest) s.

End Regex.

Import Regex.

(** A match of [blockRegex]: [whole] is [match[0]], [tagName] is [match[1]],
    [tagParam] is [match[2]] ([None] when the group did not take part) and
    [blockContent] is [match[3]]. *)
Record Match := mkMatch {
  whole : str;
  tagName : str;
  tagParam : option str;
  blockContent : str
}.

(** The closing marker [\[\/\1\]] for the captured tag name. *)
Definition closer (tag : str) : str := lit "[/" ++ tag ++ lit "]".

(** [blockRegex], [/\[([A-Z]+)(?:=([a-zA-Z0-9_\-]+))?\](.*?)\[\/\1\]/gs],
    matched at the start of [s]: the match and the input after it. *)
Definition block_at (s : str) : option (Match * str) :=
  literal (lit "[") s (fun s1 =>
  plus_greedy isUpper s1 [] (fun tag s2 =>
    let after_open (param : option str) (s3 : str) :=
      literal (lit "]") s3 (fun s4 =>
      star_lazy s4 [] (fun body s5 =>
      literal (closer tag) s5 (fun rest =>
        Some (mkMatch (consumed s rest) tag param body, rest)))) in
    optional
      (literal (lit "=") s2 (fun s3 =>
       plus_greedy isParamChar s3 [] (fun p s4 => after_open (Some p) s4)))
      (after_open None s2))).

(** [blockRegex.exec(content)] with [s] the content from [lastIndex] on: the
    start positions are tried from left to right.  The result is the text
    skipped before the match ([content.substring(lastIndex, match.index)]),
    the match, and the content from the new [lastIndex] on. *)
Fixpoint exec (s : str) (skipped : str) : option (str * Match * str) :=
  match block_at s with
  | Some (m, rest) => Some (skipped, m, rest)
  | None =>
      match s with
      | c :: s' => exec s' (skipped ++ [c])
      | [] => None
      end
  end.

(** ** The rendered document

    The nodes that [renderContent] appends to its fragment: a paragraph with
    its children, a table with its header cells (each of scope [col]) and its
    body rows, and a [pre] holding one [code] element. *)

Inductive inline :=
| TextNode (data : str)
| Br
| CodeSpan (className : str) (textContent : str).

Inductive node :=
| P (children : list inline)
| Table (className : str) (thead : list str) (tbody : list (list str))
| Pre (className : str) (codeClassName : str) (codeTextContent : str).

(** The expression [/(`[^`]+`)/g] matched at the start of [s]: the span with
    its backticks and the input after it. *)
Definition span_at (s : str) : option (str * str) :=
  literal [BACKTICK] s (fun s1 =>
  plus_greedy notBacktick s1 [] (fun _ s2 =>
  literal [BACKTICK] s2 (fun rest => Some (consumed s rest, rest)))).

(** [text.split(/(`[^`]+`)/g)]: the pieces between the spans, each span kept
    after the piece it ends.  [piece] is the text since the last span.  A span
    has at least three code units, so a fuel of the length of the text is
    never used up. *)
Fixpoint split_spans (fuel : nat) (s : str) (piece : str) : list str :=
  match fuel with
  | 0 => [piece ++ s]
  | S fuel' =>
      match s with
      | [] => [piece]
      | c :: s' =>
          match span_at s with
          | Some (span, rest) => piece :: span :: split_spans fuel' rest []
          | None => split_spans fuel' s' (piece ++ [c])
          end
      end
  end.

(** [lines.forEach((line, index) => ...)]: a text node per line and a [br]
    after every line but the last. *)
Fixpoint text_lines (lines : list str) : list inline :=
  match lines with
  | [] => []
  | [line] => [TextNode line]
  | line :: ls => TextNode line :: Br :: text_lines ls
  end.

(** The body of [parts.forEach(part => ...)]. *)
Definition render_part (part : str) : list inline :=
  if startsWith [BACKTICK] part && endsWith [BACKTICK] part then
    [CodeSpan (lit "bg-body-secondary px-1 rounded border")
       (substring 1 (length part - 1) part)]
  else if truthy part then text_lines (split LF part)
  else [].

(** [renderText]: what it appends to the fragment. *)
Definition renderText (text : str) : list node :=
  if truthy text then
    [P (flat_map render_part (split_spans (length text) text []))]
  else [].

(** [/^sql\s+/i] on [s]: the matched text [match[0]].  Without the [u] flag a
    code unit matches the letter [s] when it is [s] or [S], and likewise for
    [q] and [l]. *)
Definition ci_eq (a c : char) : bool := (lowerChar a =? lowerChar c)%N.

Fixpoint literal_ci {R : Type} (p : str) (s : str) (k : str -> option R)
  : option R :=
  match p with
  | [] => k s
  | a :: p' =>
      match s with
      | c :: s' => if ci_eq a c then literal_ci p' s' k else None
      | [] => None
      end
  end.

Definition sql_prefix (s : str) : option str :=
  literal_ci (lit "sql") s (fun s1 =>
  plus_greedy isWhiteSpace s1 [] (fun _ rest => Some (consumed s rest))).

(** The text of a [CODE] block: lines 163 to 175 of the script, the class of
    the [code] element and its text. *)
Definition code_block (tagParam : option str) (blockContent : str)
  : str * str :=
  let codeText := trim blockContent in
  match tagParam with
  | Some p =>
      if truthy p then
        let lang := toLowerCase p in
        let className := lit "language-" ++ lang in
        if JS.eqb lang (lit "sql")
           && startsWith (lit "sql ") (toLowerCase codeText) then
          match sql_prefix codeText with
          | Some m0 => (className, skipn (length m0) codeText)
          | None => (className, codeText)
          end
        else (className, codeText)
      else ([], codeText)
  | None => ([], codeText)
  end.

(** The node appended for one match: the dispatch on [tagName]. *)
Definition render_block (m : Match) : node :=
  if JS.eqb (tagName m) (lit "TABLE") then
    match parseTableData (blockContent m) with
    | Some parsedTable =>
        Table (lit "table table-bordered table-striped")
          (headers parsedTable) (rows parsedTable)
    | None =>
        Pre (lit "bg-light p-2 border rounded") (lit "text-danger")
          (lit "Could not parse table block:" ++ [LF] ++ whole m)
    end
  else if JS.eqb (tagName m) (lit "CODE") then
    let (className, codeText) := code_block (tagParam m) (blockContent m) in
    Pre (lit "p-3 border rounded") className codeText
  else
    Pre (lit "bg-light p-2 border rounded") (lit "text-warning")
      (lit "Unknown block type:" ++ [LF] ++ whole m).

(** The [while] loop of [renderContent] and the text after the last block;
    [content] is the content from [lastIndex] on.  A match has at least
    seven code units, so a fuel of the length of the content is never used
    up. *)
Fixpoint render_loop (fuel : nat) (content : str) : list node :=
  match fuel with
  | 0 => renderText (trim content)
  | S fuel' =>
      match exec content [] with
      | Some (preBlockText, m, rest) =>
          renderText (trim preBlockText)
            ++ render_block m :: render_loop fuel' rest
      | None => renderText (trim content)
      end
  end.

(** [renderContent]: the children of the target element afterwards.  The
    highlighting pass of the Prism library, when it is loaded, restyles the
    [code] elements of a language and keeps their text; it is not part of
    the model. *)
Definition renderContent (content : str) : list node :=
  render_loop (length content) content.

(** The matches of [blockRegex] over the whole content, as the loop of
    [renderContent] meets them, each with the text skipped before it, and
    the text after the last match. *)
Fixpoint matches_loop (fuel : nat) (content : str)
  : list (str * Match) * str :=
  match fuel with
  | 0 => ([], content)
  | S fuel' =>
      match exec content [] with
      | Some (gap, m, rest) =>
          let (ms, last) := matches_loop fuel' rest in ((gap, m) :: ms, last)
      | None => ([], content)
      end
  end.

Definition matchAll (content : str) : list (str * Match) * str :=
  matches_loop (length content) content.

(** The top-level blocks of a content and the texts around them. *)
Definition blocks (content : str) : list Match :=
  map snd (fst (matchAll content)).

Definition gaps (content : str) : list str :=
  map fst (fst (matchAll content)) ++ [snd (matchAll content)].

(** ** The study flow *)

Definition Rating := str.

Record Card := mkCard {
  id : N;
  front_content : str;
  back_content : str
}.

(** What the page does that is seen from outside: a card put on display by
    [loadCard] and a review posted to [/api/cards/review]. *)
Inductive effect :=
| Shown (card : Card)
| Posted (card_id : N) (rating : Rating).

(** The variables of the script ([cards], [currentCardIndex],
    [isBackVisible]), the part of the document it writes (a [Hidden] field
    is the [d-none] class, a [Disabled] field the [disabled] property of the
    buttons), whether the click listeners are attached, the number of review
    requests awaiting their response, and the effects so far. *)
Record State := mkState {
  cards : list Card;
  currentCardIndex : nat;
  isBackVisible : bool;
  frontContent : list node;
  backContent : list node;
  frontCardHidden : bool;
  backCardHidden : bool;
  actionBtnHidden : bool;
  actionBtnDisabled : bool;
  ratingButtonsHidden : bool;
  ratingButtonsDisabled : bool;
  studyAreaHidden : bool;
  controlsHidden : bool;
  sessionCompleteHidden : bool;
  caughtUp : bool;
  sessionStatus : option (nat * nat);
  errorMessage : option str;
  errorMessageHidden : bool;
  listening : bool;
  pending : nat;
  log : list effect
}.

(** [array[i] = x] within the bounds of the array. *)
Fixpoint update {A : Type} (i : nat) (x : A) (l : list A) : list A :=
  match l, i with
  | [], _ => []
  | _ :: l', 0 => x :: l'
  | a :: l', S i' => a :: update i' x l'
  end.

(** [[array[i], array[j]] = [array[j], array[i]]]: both elements are read,
    then [array[i]] and [array[j]] are written.  [shuffleArray] only swaps
    within the bounds. *)
Definition swap {A : Type} (i j : nat) (array : list A) : list A :=
  match nth_error array i, nth_error array j with
  | Some ai, Some aj => update j ai (update i aj array)
  | _, _ => array
  end.

(** The loop of [shuffleArray], from index [i] down to 1.  [rnd i] stands
    for the draw of [Math.random] at index [i]; the index
    [Math.floor(Math.random() * (i + 1))] is some number from 0 to [i]. *)
Fixpoint shuffle_loop {A : Type} (rnd : nat -> nat) (i : nat)
  (array : list A) : list A :=
  match i with
  | 0 => array
  | S i' =>
      let j := rnd i mod (i + 1) in
      shuffle_loop rnd i' (swap i j array)
  end.

Definition shuffleArray {A : Type} (rnd : nat -> nat) (array : list A)
  : list A :=
  shuffle_loop rnd (length array - 1) array.

(** [loadCard(cardIndex)]: [cardIndex >= cards.length] exactly when
    [cards[cardIndex]] is no card. *)
Definition loadCard (cardIndex : nat) (st : State) : State :=
  match nth_error (cards st) cardIndex with
  | None =>
      {| cards := cards st;
         currentCardIndex := currentCardIndex st;
         isBackVisible := isBackVisible st;
         frontContent := frontContent st;
         backContent := backContent st;
         frontCardHidden := frontCardHidden st;
         backCardHidden := backCardHidden st;
         actionBtnHidden := actionBtnHidden st;
         actionBtnDisabled := actionBtnDisabled st;
         ratingButtonsHidden := ratingButtonsHidden st;
         ratingButtonsDisabled := ratingButtonsDisabled st;
         studyAreaHidden := true;
         controlsHidden := true;
         sessionCompleteHidden := false;
         caughtUp := caughtUp st;
         sessionStatus := sessionStatus st;
         errorMessage := errorMessage st;
         errorMessageHidden := errorMessageHidden st;
         listening := listening st;
         pending := pending st;
         log := log st |}
  | Some card =>
      {| cards := cards st;
         currentCardIndex := currentCardIndex st;
         isBackVisible := false;
         frontContent := renderContent (front_content card);
         backContent := renderContent (back_content card);
         frontCardHidden := false;
         backCardHidden := true;
         actionBtnHidden := false;
         actionBtnDisabled := false;
         ratingButtonsHidden := true;
         ratingButtonsDisabled := false;
         studyAreaHidden := studyAreaHidden st;
         controlsHidden := controlsHidden st;
         sessionCompleteHidden := sessionCompleteHidden st;
         caughtUp := caughtUp st;
         sessionStatus := Some (cardIndex + 1, length (cards st));
         errorMessage := errorMessage st;
         errorMessageHidden := errorMessageHidden st;
         listening := listening st;
         pending := pending st;
         log := log st ++ [Shown card] |}
  end.

(** [handleActionClick] *)
Definition handleActionClick (st : State) : State :=
  if isBackVisible st then st
  else
    {| cards := cards st;
       currentCardIndex := currentCardIndex st;
       isBackVisible := true;
       frontContent := frontContent st;
       backContent := backContent st;
       frontCardHidden := frontCardHidden st;
       backCardHidden := false;
       actionBtnHidden := true;
       actionBtnDisabled := actionBtnDisabled st;
       ratingButtonsHidden := false;
       ratingButtonsDisabled := ratingButtonsDisabled st;
       studyAreaHidden := studyAreaHidden st;
       controlsHidden := controlsHidden st;
       sessionCompleteHidden := sessionCompleteHidden st;
       caughtUp := caughtUp st;
       sessionStatus := sessionStatus st;
       errorMessage := errorMessage st;
       errorMessageHidden := errorMessageHidden st;
       listening := listening st;
       pending := pending st;
       log := log st |}.

(** [handleRatingClick(rating)] up to its first [await]: the buttons are
    disabled and the review is posted.  Without a current card the function
    stops at once (reading [card.id] throws) and nothing is done. *)
Definition handleRatingClick (rating : Rating) (st : State) : State :=
  match nth_error (cards st) (currentCardIndex st) with
  | None => st
  | Some card =>
      {| cards := cards st;
         currentCardIndex := currentCardIndex st;
         isBackVisible := isBackVisible st;
         frontContent := frontContent st;
         backContent := backContent st;
         frontCardHidden := frontCardHidden st;
         backCardHidden := backCardHidden st;
         actionBtnHidden := actionBtnHidden st;
         actionBtnDisabled := actionBtnDisabled st;
         ratingButtonsHidden := ratingButtonsHidden st;
         ratingButtonsDisabled := true;
         studyAreaHidden := studyAreaHidden st;
         controlsHidden := controlsHidden st;
         sessionCompleteHidden := sessionCompleteHidden st;
         caughtUp := caughtUp st;
         sessionStatus := sessionStatus st;
         errorMessage := errorMessage st;
         errorMessageHidden := errorMessageHidden st;
         listening := listening st;
         pending := S (pending st);
         log := log st ++ [Posted (id card) rating] |}
  end.

(** How a posted review ends: the server accepted it, or the request, the
    status or the body of the response made the [try] block throw an error
    with this message. *)
Inductive outcome :=
| Accepted
| Rejected (message : str).

(** The rest of [handleRatingClick], run when the posted review has ended:
    [currentCardIndex++; loadCard(currentCardIndex)] or the [catch] block. *)
Definition reviewSettled (o : outcome) (st : State) : State :=
  match o with
  | Accepted =>
      loadCard (S (currentCardIndex st))
        {| cards := cards st;
           currentCardIndex := S (currentCardIndex st);
           isBackVisible := isBackVisible st;
           frontContent := frontContent st;
           backContent := backContent st;
           frontCardHidden := frontCardHidden st;
           backCardHidden := backCardHidden st;
           actionBtnHidden := actionBtnHidden st;
           actionBtnDisabled := actionBtnDisabled st;
           ratingButtonsHidden := ratingButtonsHidden st;
           ratingButtonsDisabled := ratingButtonsDisabled st;
           studyAreaHidden := studyAreaHidden st;
           controlsHidden := controlsHidden st;
           sessionCompleteHidden := sessionCompleteHidden st;
           caughtUp := caughtUp st;
           sessionStatus := sessionStatus st;
           errorMessage := errorMessage st;
           errorMessageHidden := errorMessageHidden st;
           listening := listening st;
           pending := Nat.pred (pending st);
           log := log st |}
  | Rejected message =>
      {| cards := cards st;
         currentCardIndex := currentCardIndex st;
         isBackVisible := isBackVisible st;
         frontContent := frontContent st;
         backContent := backContent st;
         frontCardHidden := frontCardHidden st;
         backCardHidden := backCardHidden st;
         actionBtnHidden := actionBtnHidden st;
         actionBtnDisabled := actionBtnDisabled st;
         ratingButtonsHidden := ratingButtonsHidden st;
         ratingButtonsDisabled := false;
         studyAreaHidden := studyAreaHidden st;
         controlsHidden := controlsHidden st;
         sessionCompleteHidden := sessionCompleteHidden st;
         caughtUp := caughtUp st;
         sessionStatus := sessionStatus st;
         errorMessage := Some (lit "Error submitting review: " ++ message);
         errorMessageHidden := false;
         listening := listening st;
         pending := Nat.pred (pending st);
         log := log st |}
  end.

(** [initializeStudySession] from the arrival of the due cards
    ([cards = await response.json()]) on. *)
Definition initializeStudySession (rnd : nat -> nat) (due : list Card)
  (st : State) : State :=
  match due with
  | [] =>
      {| cards := [];
         currentCardIndex := currentCardIndex st;
         isBackVisible := isBackVisible st;
         frontContent := frontContent st;
         backContent := backContent st;
         frontCardHidden := frontCardHidden st;
         backCardHidden := backCardHidden st;
         actionBtnHidden := actionBtnHidden st;
         actionBtnDisabled := actionBtnDisabled st;
         ratingButtonsHidden := ratingButtonsHidden st;
         ratingButtonsDisabled := ratingButtonsDisabled st;
         studyAreaHidden := true;
         controlsHidden := true;
         sessionCompleteHidden := false;
         caughtUp := true;
         sessionStatus := sessionStatus st;
         errorMessage := errorMessage st;
         errorMessageHidden := errorMessageHidden st;
         listening := listening st;
         pending := pending st;
         log := log st |}
  | _ :: _ =>
      let loaded :=
        loadCard 0
          {| cards := shuffleArray rnd due;
             currentCardIndex := 0;
             isBackVisible := isBackVisible st;
             frontContent := frontContent st;
             backContent := backContent st;
             frontCardHidden := frontCardHidden st;
             backCardHidden := backCardHidden st;
             actionBtnHidden := actionBtnHidden st;
             actionBtnDisabled := actionBtnDisabled st;
             ratingButtonsHidden := ratingButtonsHidden st;
             ratingButtonsDisabled := ratingButtonsDisabled st;
             studyAreaHidden := studyAreaHidden st;
             controlsHidden := controlsHidden st;
             sessionCompleteHidden := sessionCompleteHidden st;
             caughtUp := caughtUp st;
             sessionStatus := sessionStatus st;
             errorMessage := errorMessage st;
             errorMessageHidden := errorMessageHidden st;
             listening := listening st;
             pending := pending st;
             log := log st |} in
      {| cards := cards loaded;
         currentCardIndex := currentCardIndex loaded;
         isBackVisible := isBackVisible loaded;
         frontContent := frontContent loaded;
         backContent := backContent loaded;
         frontCardHidden := frontCardHidden loaded;
         backCardHidden := backCardHidden loaded;
         actionBtnHidden := actionBtnHidden loaded;
         actionBtnDisabled := actionBtnDisabled loaded;
         ratingButtonsHidden := ratingButtonsHidden loaded;
         ratingButtonsDisabled := ratingButtonsDisabled loaded;
         studyAreaHidden := studyAreaHidden loaded;
         controlsHidden := controlsHidden loaded;
         sessionCompleteHidden := sessionCompleteHidden loaded;
         caughtUp := caughtUp loaded;
         sessionStatus := sessionStatus loaded;
         errorMessage := errorMessage loaded;
         errorMessageHidden := errorMessageHidden loaded;
         listening := true;
         pending := pending loaded;
         log := log loaded |}
  end.

(** The page when the script starts: its variables as lines 3 to 5 set them,
    no listener, no request, nothing done yet.  The static markup of the
    page is not constrained. *)
Definition fresh (st : State) : Prop :=
  cards st = [] /\ currentCardIndex st = 0 /\ isBackVisible st = false
  /\ listening st = false /\ pending st = 0 /\ log st = [].

(** What happens to the page after its start: a click on the action button,
    a click on a rating button, the end of a posted review. *)
Inductive event :=
| ClickAction
| ClickRating (rating : Rating)
| Settle (o : outcome).

(** A click event on a button reaches the listener when the listener is
    attached and the button is not disabled (a disabled button gets no click
    event).  Whether the button is shown is not looked at: the [d-none]
    class does not keep a click event from the listener, and neither the
    listeners of lines 376 to 382 nor the handlers read it. *)
Definition actionEnabled (st : State) : bool :=
  listening st && negb (actionBtnDisabled st).

Definition ratingEnabled (st : State) : bool :=
  listening st && negb (ratingButtonsDisabled st).

(** A click runs the handler when the click event reaches the listener; a
    review ends only when one is awaited. *)
Definition dispatch (ev : event) (st : State) : State :=
  match ev with
  | ClickAction =>
      if actionEnabled st then handleActionClick st else st
  | ClickRating rating =>
      if ratingEnabled st then handleRatingClick rating st else st
  | Settle o =>
      if 0 <? pending st then reviewSettled o st else st
  end.

Definition run (evs : list event) (st : State) : State :=
  fold_left (fun s ev => dispatch ev s) evs st.

(** The states of a session: any start of the script, any due cards, any
    draws of the shuffle, any events. *)
Definition reachable (st : State) : Prop :=
  exists st0 rnd due evs,
    fresh st0 /\ st = run evs (initializeStudySession rnd due st0).

(** [reveal()] is a click on the action button; [rate(rating)] with its
    submission is a click on a rating button and the end of the review. *)
Definition reveal : list event := [ClickAction].

Definition rate (rating : Rating) (o : outcome) : list event :=
  [ClickRating rating; Settle o].

(** The scripted run: for each rating, reveal and then rate with success. *)
Definition script (ratings : list Rating) : list event :=
  flat_map (fun rating => reveal ++ rate rating Accepted) ratings.

(** The cards shown and the reviews posted, read off the effects. *)
Definition shown (l : list effect) : list Card :=
  flat_map (fun e => match e with Shown c => [c] | Posted _ _ => [] end) l.

Definition posted (l : list effect) : list (N * Rating) :=
  flat_map (fun e => match e with Shown _ => [] | Posted i r => [(i, r)] end) l.

(** The terminal flag of a session: the index is past the last card. *)
Definition terminal (st : State) : bool :=
  length (cards st) <=? currentCardIndex st.

(** The page of a finished session, as [loadCard] leaves it. *)
Definition completePage (st : State) : bool :=
  studyAreaHidden st && controlsHidden st && negb (sessionCompleteHidden st).

(** ** Definitions used in the statements *)

(** The padding of one row, as a function of the header. *)
Definition padded (hs : list str) (line : str) : list str :=
  cells line ++ repeat [] (length hs - length (cells line)).

(** The table of the specification's example: a header of three cells, a
    separator and a data row of two cells. *)
Definition example_table_body : str :=
  lit "a | b | c" ++ [LF] ++ lit "--- | --- | ---" ++ [LF] ++ lit "1 | 2".

(** The opening marker of a block: [[TAG]] or [[TAG=param]]. *)
Definition param_text (param : option str) : str :=
  match param with
  | None => []
  | Some p => lit "=" ++ p
  end.

Definition opener (tag : str) (param : option str) : str :=
  lit "[" ++ tag ++ param_text param ++ lit "]".

(** The closing marker of [tag] does not start at any position of [body]:
    no proper suffix [b2] of the body, followed by what comes after the
    body, begins with it. *)
Definition first_closer (tag body after : str) : Prop :=
  forall b1 b2, body = b1 ++ b2 -> b2 <> [] ->
                startsWith (closer tag) (b2 ++ after) = false.

(** The [pre] shown for a table block that does not parse, with the
    matched text [raw], and the one shown for an unknown tag. *)
Definition error_block (raw : str) : node :=
  Pre (lit "bg-light p-2 border rounded") (lit "text-danger")
    (lit "Could not parse table block:" ++ [LF] ++ raw).

Definition warning_block (raw : str) : node :=
  Pre (lit "bg-light p-2 border rounded") (lit "text-warning")
    (lit "Unknown block type:" ++ [LF] ++ raw).

(** A text that begins with [sql], in any letter case, and then a code
    unit accepted by [sep]: what is left of the text without this prefix and
    without the white space that follows it. *)
Definition strip_sql (sep : char -> bool) (s : str) : option str :=
  match s with
  | a :: b :: c :: w :: rest =>
      if ci_eq 115%N a && ci_eq 113%N b && ci_eq 108%N c && sep w
      then Some (trimStart rest) else None
  | _ => None
  end.

Definition isSpace (c : char) : bool := (c =? SPACE)%N.

(** The [pre] of a code block: its class, the class of its [code] and the
    text. *)
Definition code_node (className codeText : str) : node :=
  Pre (lit "p-3 border rounded") className codeText.


(** The session shows the front of the card of index [k] and waits for the
    reveal. *)
Definition presenting (k : nat) (st : State) : Prop :=
  listening st = true /\ currentCardIndex st = k /\ k < length (cards st)
  /\ isBackVisible st = false
  /\ actionBtnHidden st = false /\ actionBtnDisabled st = false
  /\ ratingButtonsHidden st = true /\ ratingButtonsDisabled st = false
  /\ pending st = 0.

(** What holds of every state of a session.  With the listeners attached:
    the rating buttons are hidden while the back is not revealed; at most
    one review is awaited, and while one is awaited the rating buttons are
    disabled and the index is that of a card; the rating buttons are
    usable only at the index of a card.  Without listeners nothing is
    awaited. *)
Definition session_inv (st : State) : Prop :=
  if listening st then
    (isBackVisible st = false -> ratingButtonsHidden st = true)
    /\ pending st <= 1
    /\ (pending st = 1 ->
        ratingButtonsDisabled st = true
        /\ currentCardIndex st < length (cards st))
    /\ (ratingButtonsDisabled st = false ->
        currentCardIndex st < length (cards st))
  else pending st = 0.

(** A page as the script may find it, and two cards. *)
Definition blankPage : State :=
  {| cards := [];
     currentCardIndex := 0;
     isBackVisible := false;
     frontContent := [];
     backContent := [];
     frontCardHidden := false;
     backCardHidden := true;
     actionBtnHidden := false;
     actionBtnDisabled := false;
     ratingButtonsHidden := true;
     ratingButtonsDisabled := false;
     studyAreaHidden := false;
     controlsHidden := false;
     sessionCompleteHidden := true;
     caughtUp := false;
     sessionStatus := None;
     errorMessage := None;
     errorMessageHidden := true;
     listening := false;
     pending := 0;
     log := [] |}.

Definition card1 : Card := mkCard 1 (lit "What is a key?") (lit "`id`").
Definition card2 : Card :=
  mkCard 2 (lit "List all rows") (lit "[CODE=sql]sql SELECT * FROM t[/CODE]").
Definition good : Rating := lit "good".
Definition hard : Rating := lit "hard".

(** The non-blank lines of a table body as it stands, before
    [parseTableData] trims it. *)
Definition nonblank_lines (body : str) : list str :=
  filter (fun line => truthy (trim line)) (split LF body).

(** A code unit that is not white space occurs in the text. *)
Definition hasInk (s : str) : bool :=
  existsb (fun c => negb (isWhiteSpace c)) s.

(** The number of lines of a text that hold something else than white
    space. *)
Definition ink_lines (s : str) : nat :=
  length (filter hasInk (split LF s)).

(** A parameter of an opening marker, when there is one: one character of
    [[a-zA-Z0-9_\-]] or more. *)
Definition valid_param (param : option str) : Prop :=
  match param with
  | None => True
  | Some p => p <> [] /\ forallb isParamChar p = true
  end.


(** ** Definitions used in the further properties *)

(** A cell as the table parser leaves it: trimming does not change it, and
    it holds neither the cell separator nor a line feed. *)
Definition clean_cell (c : str) : Prop :=
  trim c = c /\ ~ In PIPE c /\ ~ In LF c.

Definition LBRACKET : char := 91%N.

(** [pieces.join(sep)] for a one-character separator. *)
Fixpoint join (sep : char) (pieces : list str) : str :=
  match pieces with
  | [] => []
  | [p] => p
  | p :: ps => p ++ sep :: join sep ps
  end.

(** The text that the children of a paragraph stand for: the data of a text
    node, a line feed for a [br], the text of an inline code between
    backticks. *)
Definition inline_text (i : inline) : str :=
  match i with
  | TextNode data => data
  | Br => [LF]
  | CodeSpan _ textContent => BACKTICK :: textContent ++ [BACKTICK]
  end.

Definition paragraph_text (children : list inline) : str :=
  flat_map inline_text children.

(** The [code] element of an inline code. *)
Definition code_span (inner : str) : inline :=
  CodeSpan (lit "bg-body-secondary px-1 rounded border") inner.

(** The children of the paragraph for a text without backtick. *)
Definition plain_part (x : str) : list inline :=
  if truthy x then text_lines (split LF x) else [].

(** A paragraph has a child; other nodes are not concerned. *)
Definition nonempty_paragraph (n : node) : Prop :=
  match n with
  | P children => children <> []
  | _ => True
  end.

(** A character of a language name as the class of a code block holds it:
    of [[a-zA-Z0-9_\-]] and not an upper-case letter. *)
Definition isLangChar (c : char) : bool := isParamChar c && negb (isUpper c).

(** The class of the [code] element of a code block. *)
Definition language_class (param : option str) : str :=
  match param with
  | None => []
  | Some p => lit "language-" ++ toLowerCase p
  end.

(** What else holds of every state of a session.  With the listeners
    attached, the action button is hidden once the back is revealed, and at
    the end of the session the rating buttons are disabled and nothing is
    awaited.  The index is at most the number of cards; the cards shown so
    far are the cards up to the index, in order; every step of the index
    and every awaited review has its posted review; every review was posted
    for a card of the session. *)
Definition flow_inv (st : State) : Prop :=
  (listening st = true -> isBackVisible st = true ->
   actionBtnHidden st = true)
  /\ (listening st = true -> terminal st = true ->
      ratingButtonsDisabled st = true /\ pending st = 0)
  /\ currentCardIndex st <= length (cards st)
  /\ shown (log st) = firstn (S (currentCardIndex st)) (cards st)
  /\ currentCardIndex st + pending st <= length (posted (log st))
  /\ Forall (fun ir => exists c, In c (cards st) /\ id c = fst ir)
       (posted (log st)).

(** [l1] is the beginning of [l2]. *)
Definition extends {A : Type} (l1 l2 : list A) : Prop :=
  exists more, l2 = l1 ++ more.

(** ** The start of the study page

    [initializeStudySession] from its first line: the deck parameter of the
    address, the fetch of the decks for the title, the fetch of the due
    cards, and then the part modelled above. *)

(** What a [fetch] and the reading of its JSON body give: the value, or an
    error thrown on the way (request, status or body). *)
Inductive fetched (A : Type) :=
| Fetched (value : A)
| FetchFailed.

Arguments Fetched {A} value.
Arguments FetchFailed {A}.

Record Deck := mkDeck {
  deck_id : N;
  deck_name : str
}.

(** The study page: the state of the session, the text of the title (none
    while the script has not set it) and the markup assigned to the error
    message through [innerHTML] (none while the script has assigned at most
    a text). *)
Record StudyPage := mkStudyPage {
  session : State;
  deckTitle : option str;
  errorMarkup : option str
}.

Definition QUOTE : char := 34%N.

(** The error message with the study area and the controls hidden: what the
    two error exits of [initializeStudySession] do to the session state. *)
Definition showFailure (message : str) (st : State) : State :=
  {| cards := cards st;
     currentCardIndex := currentCardIndex st;
     isBackVisible := isBackVisible st;
     frontContent := frontContent st;
     backContent := backContent st;
     frontCardHidden := frontCardHidden st;
     backCardHidden := backCardHidden st;
     actionBtnHidden := actionBtnHidden st;
     actionBtnDisabled := actionBtnDisabled st;
     ratingButtonsHidden := ratingButtonsHidden st;
     ratingButtonsDisabled := ratingButtonsDisabled st;
     studyAreaHidden := true;
     controlsHidden := true;
     sessionCompleteHidden := sessionCompleteHidden st;
     caughtUp := caughtUp st;
     sessionStatus := sessionStatus st;
     errorMessage := Some message;
     errorMessageHidden := false;
     listening := listening st;
     pending := pending st;
     log := log st |}.

(** The exit for a missing deck parameter, lines 329 to 337; the message is
    assigned as markup and reads as the text given to [showFailure]. *)
Definition noDeckSelected (pg : StudyPage) : StudyPage :=
  {| session :=
       showFailure (lit "No deck selected. Please go back and choose a deck.")
         (session pg);
     deckTitle := Some (lit "Error");
     errorMarkup :=
       Some (lit "No deck selected. Please <a href=" ++ [QUOTE]
               ++ lit "index.html" ++ [QUOTE]
               ++ lit ">go back</a> and choose a deck.") |}.

(** The [catch] block, lines 385 to 392. *)
Definition loadFailed (pg : StudyPage) : StudyPage :=
  {| session :=
       showFailure
         (lit "Could not load the deck. Please ensure the backend is running and the deck ID is valid.")
         (session pg);
     deckTitle := Some (lit "Error Loading Deck");
     errorMarkup := errorMarkup pg |}.

Section Start.

(** [d.id == deckId], the loose equality of a deck identifier of the server
    and the text of the address. *)
Variable sameDeck : N -> str -> bool.

(** [initializeStudySession] as a whole.  [deckId] is [params.get('deck')],
    [None] for [null]; the due cards are fetched only once the decks have
    been. *)
Definition startStudyPage (deckId : option str) (decks : fetched (list Deck))
  (due : fetched (list Card)) (rnd : nat -> nat) (pg : StudyPage)
  : StudyPage :=
  match deckId with
  | None => noDeckSelected pg
  | Some deck =>
      if truthy deck then
        match decks with
        | FetchFailed => loadFailed pg
        | Fetched allDecks =>
            let deckName :=
              match find (fun d => sameDeck (deck_id d) deck) allDecks with
              | Some currentDeck => deck_name currentDeck
              | None => lit "Study Session"
              end in
            match due with
            | FetchFailed => loadFailed pg
            | Fetched dueCards =>
                {| session :=
                     initializeStudySession rnd dueCards (session pg);
                   deckTitle := Some deckName;
                   errorMarkup := errorMarkup pg |}
            end
        end
      else noDeckSelected pg
  end.

(** The start did not reach the due cards. *)
Definition startFails (deckId : option str) (decks : fetched (list Deck))
  (due : fetched (list Card)) : bool :=
  match deckId, decks, due with
  | Some deck, Fetched _, Fetched _ => negb (truthy deck)
  | _, _, _ => true
  end.

End Start.

(** ** A content described by its markers

    A content written as a text, then blocks each followed by a text.  The
    description looks at the code units only: it does not run the block
    expression. *)

(** [p] occurs in [s]: it begins at some position of [s]. *)
Fixpoint occursb (p s : str) : bool :=
  startsWith p s
  || match s with
     | [] => false
     | _ :: s' => occursb p s'
     end.

(** What is left of [s] after its longest beginning made of code units of
    the class. *)
Fixpoint skipRun (cls : char -> bool) (s : str) : str :=
  match s with
  | [] => []
  | c :: s' => if cls c then skipRun cls s' else s
  end.

(** One code unit of the class or more begin [s], and [next] accepts what
    follows them. *)
Definition run_then (cls : char -> bool) (next : str -> bool) (s : str)
  : bool :=
  match s with
  | [] => false
  | c :: _ => cls c && next (skipRun cls s)
  end.

(** The closing bracket begins [s]. *)
Definition closing (s : str) : bool :=
  match s with
  | [] => false
  | c :: _ => (c =? 93)%N
  end.

(** What follows the tag name in an opening marker: the closing bracket, or
    [=], a parameter and the closing bracket. *)
Definition after_tag (s : str) : bool :=
  closing s
  || match s with
     | [] => false
     | x :: s3 => (x =? 61)%N && run_then isParamChar closing s3
     end.

(** An opening marker [[TAG]] or [[TAG=param]] begins [s]: a bracket, one
    upper-case letter or more, then the closing bracket, or [=], one
    parameter character or more and the closing bracket. *)
Definition opener_at (s : str) : bool :=
  match s with
  | [] => false
  | c :: s1 => (c =? LBRACKET)%N && run_then isUpper after_tag s1
  end.

(** An opening marker begins somewhere in [s]. *)
Fixpoint has_opener (s : str) : bool :=
  opener_at s
  || match s with
     | [] => false
     | _ :: s' => has_opener s'
     end.

(** A block as it is written: its tag name, its parameter if any, its
    body. *)
Record BlockSrc := mkBlockSrc {
  src_tag : str;
  src_param : option str;
  src_body : str
}.

(** The text of a block: opening marker, body, closing marker of the same
    tag name. *)
Definition block_text (b : BlockSrc) : str :=
  opener (src_tag b) (src_param b) ++ src_body b ++ closer (src_tag b).

Definition param_ok (param : option str) : bool :=
  match param with
  | None => true
  | Some p => truthy p && forallb isParamChar p
  end.

(** A balanced block: a tag name of upper-case letters, a well-formed
    parameter, and a body in which the closing marker of the tag does not
    occur, so that the closing marker written after the body is the one that
    pairs with the opening marker. *)
Definition balanced_block (b : BlockSrc) : bool :=
  truthy (src_tag b) && forallb isUpper (src_tag b)
  && param_ok (src_param b)
  && negb (occursb (closer (src_tag b)) (src_body b)).

(** A text around the blocks: no opening marker begins in it. *)
Definition free_text (gap : str) : bool := negb (has_opener gap).

(** The content made of a first text and of blocks each followed by a
    text. *)
Fixpoint assemble (gap0 : str) (items : list (BlockSrc * str)) : str :=
  gap0 ++ match items with
          | [] => []
          | (b, gap) :: more => block_text b ++ assemble gap more
          end.

Definition balanced_item (item : BlockSrc * str) : bool :=
  balanced_block (fst item) && free_text (snd item).

(** The match that the block expression has to give for a block. *)
Definition match_of (b : BlockSrc) : Match :=
  mkMatch (block_text b) (src_tag b) (src_param b) (src_body b).

(** The text that a code block has to store: the trimmed body, and for the
    language [sql] and a trimmed body that begins with [sql] and a space,
    what follows this prefix and the white space after it. *)
Definition code_text_of (param : option str) (body : str) : str :=
  match param with
  | Some p =>
      if JS.eqb (toLowerCase p) (lit "sql") then
        match strip_sql isSpace (trim body) with
        | Some text => text
        | None => trim body
        end
      else trim body
  | None => trim body
  end.

(** What follows a text around the blocks: nothing, or the bracket of the
    next opening marker. *)
Definition stops (tail : str) : Prop :=
  match tail with
  | [] => True
  | c :: _ => c = LBRACKET
  end.

(* ================================================================== *)
(** * Part II. Lemmas and theorems *)
(* ================================================================== *)

(** ** Strings *)

Section StringFacts.

Lemma startsWith_app (p s : str) : startsWith p (p ++ s) = true.
Proof.
  induction p as [|a p IH]; simpl; [reflexivity|].
  now rewrite N.eqb_refl.
Qed.

Lemma startsWith_inv (p s : str) :
  startsWith p s = true -> exists s', s = p ++ s'.
Proof.
  revert s. induction p as [|a p IH]; intros s H; simpl in *.
  - now exists s.
  - destruct s as [|c s]; [discriminate|].
    apply andb_true_iff in H as [Hac Hp].
    apply N.eqb_eq in Hac as ->.
    destruct (IH _ Hp) as [s' ->]. now exists s'.
Qed.

Lemma eqb_eq (a b : str) : JS.eqb a b = true <-> a = b.
Proof.
  revert b. induction a as [|x a IH]; intros [|y b]; simpl;
    try (split; [discriminate|discriminate]); [tauto|].
  rewrite andb_true_iff, N.eqb_eq, IH.
  split; [intros [-> ->]; reflexivity|intros [= -> ->]; tauto].
Qed.

Lemma consumed_app (x rest : str) : consumed (x ++ rest) rest = x.
Proof.
  unfold consumed. rewrite length_app.
  replace (length x + length rest - length rest) with (length x) by lia.
  rewrite firstn_app, firstn_all, Nat.sub_diag. simpl. apply app_nil_r.
Qed.

Lemma consumed_eq (s x rest : str) : s = x ++ rest -> consumed s rest = x.
Proof. intros ->. apply consumed_app. Qed.

End StringFacts.

(** ** Trimming a table body does not change the count of its non-blank
    lines *)

Section LineFacts.

Lemma trimStart_nil_ink (s : str) : truthy (trimStart s) = hasInk s.
Proof.
  induction s as [|c s IH]; simpl; [reflexivity|].
  destruct (isWhiteSpace c); simpl; [exact IH|reflexivity].
Qed.

Lemma hasInk_rev (s : str) : hasInk (rev s) = hasInk s.
Proof.
  unfold hasInk. induction s as [|c s IH]; simpl; [reflexivity|].
  rewrite existsb_app, IH. simpl. rewrite orb_false_r. apply orb_comm.
Qed.

Lemma truthy_rev (s : str) : truthy (rev s) = truthy s.
Proof.
  destruct s as [|c s]; [reflexivity|]. simpl.
  now destruct (rev s).
Qed.

Lemma trimStart_ink (s : str) : hasInk (trimStart s) = hasInk s.
Proof.
  induction s as [|c s IH]; simpl; [reflexivity|].
  destruct (isWhiteSpace c) eqn:Hc; simpl; [exact IH|].
  now rewrite Hc.
Qed.

(** A line is kept by the filter exactly when it holds a code unit that is
    not white space. *)
Lemma truthy_trim (s : str) : truthy (trim s) = hasInk s.
Proof.
  unfold trim, trimEnd.
  now rewrite truthy_rev, trimStart_nil_ink, hasInk_rev, trimStart_ink.
Qed.

Lemma filter_ext_length (f g : str -> bool) (l : list str) :
  (forall x, f x = g x) -> length (filter f l) = length (filter g l).
Proof.
  intros H. induction l as [|x l IH]; simpl; [reflexivity|].
  rewrite H. destruct (g x); simpl; now rewrite IH.
Qed.

Lemma split_cons (sep c : char) (s : str) :
  split sep (c :: s)
  = if (c =? sep)%N then [] :: split sep s
    else match split sep s with
         | p :: ps => (c :: p) :: ps
         | [] => [[c]]
         end.
Proof.
  unfold split. simpl. destruct (split1 sep s) as [p ps].
  now destruct (c =? sep)%N.
Qed.

Lemma split_not_nil (sep : char) (s : str) : split sep s <> [].
Proof. unfold split. now destruct (split1 sep s). Qed.

Lemma ink_lines_cons_ws (c : char) (s : str) :
  isWhiteSpace c = true -> ink_lines (c :: s) = ink_lines s.
Proof.
  intros Hc. unfold ink_lines. rewrite split_cons.
  destruct (c =? LF)%N; [reflexivity|].
  destruct (split LF s) as [|p ps] eqn:Hs; [now apply split_not_nil in Hs|].
  assert (Hp : hasInk (c :: p) = hasInk p)
    by (unfold hasInk; cbn [existsb]; now rewrite Hc).
  cbn [filter]. rewrite Hp. now destruct (hasInk p).
Qed.

Lemma ink_lines_trimStart (s : str) : ink_lines (trimStart s) = ink_lines s.
Proof.
  induction s as [|c s IH]; simpl; [reflexivity|].
  destruct (isWhiteSpace c) eqn:Hc; [|reflexivity].
  now rewrite IH, ink_lines_cons_ws.
Qed.

Lemma split_snoc (sep c : char) (s : str) :
  split sep (s ++ [c])
  = if (c =? sep)%N then split sep s ++ [[]]
    else removelast (split sep s) ++ [last (split sep s) [] ++ [c]].
Proof.
  induction s as [|x s IH].
  - simpl app. rewrite split_cons. cbn.
    now destruct (c =? sep)%N.
  - simpl app. rewrite !split_cons, IH.
    destruct (x =? sep)%N, (c =? sep)%N; try reflexivity.
    + destruct (split sep s) as [|p ps] eqn:Hs;
        [now apply split_not_nil in Hs|reflexivity].
    + destruct (split sep s) as [|p ps] eqn:Hs;
        [now apply split_not_nil in Hs|reflexivity].
    + destruct (split sep s) as [|p ps] eqn:Hs;
        [now apply split_not_nil in Hs|].
      destruct ps as [|q qs]; reflexivity.
Qed.

Lemma split_rev (sep : char) (s : str) :
  split sep (rev s) = rev (map (@rev char) (split sep s)).
Proof.
  induction s as [|c s IH]; [reflexivity|].
  simpl rev. rewrite split_snoc, split_cons, IH.
  destruct (c =? sep)%N; [reflexivity|].
  destruct (split sep s) as [|p ps] eqn:Hs;
    [now apply split_not_nil in Hs|].
  simpl. rewrite removelast_last, last_last. reflexivity.
Qed.

Lemma ink_count_rev (l : list str) :
  length (filter hasInk (rev (map (@rev char) l))) = length (filter hasInk l).
Proof.
  induction l as [|p ps IH]; [reflexivity|].
  cbn [map rev filter].
  rewrite filter_app, length_app. cbn [filter].
  rewrite hasInk_rev. unfold str in *. rewrite IH.
  destruct (hasInk p); cbn [length]; lia.
Qed.

Lemma ink_lines_rev (s : str) : ink_lines (rev s) = ink_lines s.
Proof. unfold ink_lines. rewrite split_rev. apply ink_count_rev. Qed.

Lemma ink_lines_trim (s : str) : ink_lines (trim s) = ink_lines s.
Proof.
  unfold trim, trimEnd.
  now rewrite ink_lines_rev, ink_lines_trimStart, ink_lines_rev,
    ink_lines_trimStart.
Qed.

(** The lines that [parseTableData] keeps are as many as the non-blank
    lines of the body. *)
Lemma table_lines_count (body : str) :
  length (table_lines body) = length (nonblank_lines body).
Proof.
  unfold table_lines, nonblank_lines.
  rewrite !(filter_ext_length _ hasInk _ truthy_trim).
  apply ink_lines_trim.
Qed.

End LineFacts.

(** ** The table sub-parser *)

Section TableFacts.

Lemma pad_loop_spec (fuel hlen : nat) (rowData : list str) :
  hlen - length rowData <= fuel ->
  pad_loop fuel hlen rowData = rowData ++ repeat [] (hlen - length rowData).
Proof.
  revert rowData.
  induction fuel as [|fuel IH]; intros rowData Hfuel; simpl.
  - replace (hlen - length rowData) with 0 by lia.
    now rewrite app_nil_r.
  - destruct (Nat.ltb_spec (length rowData) hlen) as [Hlt|Hge].
    + rewrite IH by (rewrite length_app; simpl; lia).
      rewrite length_app; simpl.
      replace (hlen - length rowData) with (S (hlen - (length rowData + 1)))
        by lia.
      simpl. now rewrite <- app_assoc.
    + replace (hlen - length rowData) with 0 by lia.
      now rewrite app_nil_r.
Qed.

Lemma rows_loop_spec (hs : list str) (ls : list str) (acc : list (list str)) :
  rows_loop hs ls acc = acc ++ map (padded hs) ls.
Proof.
  revert acc.
  induction ls as [|line ls IH]; intros acc; simpl.
  - now rewrite app_nil_r.
  - rewrite IH, pad_loop_spec by lia.
    now rewrite <- app_assoc.
Qed.

Lemma parseTableData_some (body : str) (t : TableData) :
  parseTableData body = Some t ->
  2 <= length (table_lines body)
  /\ headers t = cells (nth 0 (table_lines body) [])
  /\ rows t = map (padded (headers t)) (skipn 2 (table_lines body)).
Proof.
  unfold parseTableData.
  destruct (Nat.ltb_spec (length (table_lines body)) 2) as [Hlt|Hge];
    [discriminate|].
  intros [= <-]; simpl.
  now rewrite rows_loop_spec.
Qed.

Lemma parseTableData_none (body : str) :
  parseTableData body = None <-> length (table_lines body) < 2.
Proof.
  unfold parseTableData.
  destruct (Nat.ltb_spec (length (table_lines body)) 2); split;
    intros; try discriminate; try lia; reflexivity.
Qed.

Lemma padded_length (hs : list str) (line : str) :
  length (padded hs line) = Nat.max (length hs) (length (cells line)).
Proof.
  unfold padded. rewrite length_app, repeat_length. lia.
Qed.

End TableFacts.

(** C3. When a table body parses, the data rows are the lines from the third
    on, in order; a row that splits into fewer cells than the header is
    right-padded with empty strings to exactly the header length, a row with
    at least as many cells as the header is kept as it is, so that every row
    is at least as long as the header; and the body [a | b | c], separator,
    [1 | 2] gives the headers [a, b, c] and the single row [1, 2, ""]. *)
Theorem C3_rows_padded_to_header :
  (forall (body : str) (t : TableData),
      parseTableData body = Some t ->
      headers t = cells (nth 0 (table_lines body) [])
      /\ length (rows t) = length (table_lines body) - 2
      /\ forall (i : nat) (line : str),
          nth_error (table_lines body) (2 + i) = Some line ->
          exists row,
            nth_error (rows t) i = Some row
            /\ (length (cells line) < length (headers t) ->
                row = cells line
                        ++ repeat [] (length (headers t) - length (cells line))
                /\ length row = length (headers t))
            /\ (length (headers t) <= length (cells line) -> row = cells line)
            /\ length (headers t) <= length row)
  /\ parseTableData example_table_body
     = Some (mkTable [lit "a"; lit "b"; lit "c"] [[lit "1"; lit "2"; []]]).
Proof.
  split; [|reflexivity].
  intros body t Hparse.
  destruct (parseTableData_some _ Hparse) as (Hlen & Hhs & Hrows).
  split; [exact Hhs|].
  split; [rewrite Hrows, length_map, length_skipn; reflexivity|].
  intros i line Hline.
  exists (padded (headers t) line).
  split.
  - rewrite Hrows, nth_error_map, nth_error_skipn, Hline. reflexivity.
  - repeat split.
    + rewrite padded_length. lia.
    + intros Hle. unfold padded.
      replace (length (headers t) - length (cells line)) with 0 by lia.
      apply app_nil_r.
    + rewrite padded_length. lia.
Qed.

Lemma C3_rows_padded_to_header_witness :
  parseTableData example_table_body
  = Some (mkTable [lit "a"; lit "b"; lit "c"] [[lit "1"; lit "2"; []]])
  /\ exists row,
      nth_error (rows (mkTable [lit "a"; lit "b"; lit "c"]
                         [[lit "1"; lit "2"; []]])) 0 = Some row
      /\ length row = 3.
Proof.
  split; [reflexivity|].
  destruct (proj1 C3_rows_padded_to_header example_table_body
              (mkTable [lit "a"; lit "b"; lit "c"] [[lit "1"; lit "2"; []]])
              eq_refl) as (_ & _ & Hrow).
  destruct (Hrow 0 (lit "1 | 2") eq_refl) as (row & Hnth & Hshort & _ & _).
  exists row. split; [exact Hnth|].
  apply Hshort. vm_compute. lia.
Defined.

(** C10. A table body with exactly two non-blank lines parses: the headers
    are the trimmed cells of the first of the lines that the parser keeps,
    and there is no row. *)
Theorem C10_header_and_separator_only (body : str) :
  length (nonblank_lines body) = 2 ->
  parseTableData body
  = Some (mkTable (cells (nth 0 (table_lines body) [])) []).
Proof.
  intros Hlen. rewrite <- table_lines_count in Hlen.
  unfold parseTableData. rewrite Hlen. simpl.
  destruct (table_lines body) as [|l1 [|l2 [|l3 ls]]]; try discriminate.
  reflexivity.
Qed.

Lemma C10_header_and_separator_only_witness :
  parseTableData (lit "a | b" ++ [LF] ++ lit "--- | ---")
  = Some (mkTable [lit "a"; lit "b"] []).
Proof.
  exact (C10_header_and_separator_only
           (lit "a | b" ++ [LF] ++ lit "--- | ---") eq_refl).
Defined.

(** ** Backtracking matching: what a successful match looks like *)

Section RegexFacts.
Variable R : Type.

Lemma literal_inv (p s : str) (k : str -> option R) (r : R) :
  literal p s k = Some r -> exists s', s = p ++ s' /\ k s' = Some r.
Proof.
  revert s. induction p as [|a p IH]; intros s H; simpl in *.
  - now exists s.
  - destruct s as [|c s]; [discriminate|].
    destruct (N.eqb_spec a c) as [->|]; [|discriminate].
    destruct (IH _ H) as (s' & -> & Hk). now exists s'.
Qed.

Lemma literal_app (p s : str) (k : str -> option R) :
  literal p (p ++ s) k = k s.
Proof.
  induction p as [|a p IH]; simpl; [reflexivity|].
  now rewrite N.eqb_refl.
Qed.

(** A literal before a continuation that cannot fail: the match fails
    exactly when the input does not start with the literal. *)
Lemma literal_none (p s : str) (k : str -> option R) :
  (forall x, k x <> None) ->
  literal p s k = None -> startsWith p s = false.
Proof.
  intros Hk. revert s. induction p as [|a p IH]; intros s H; simpl in *.
  - now apply Hk in H.
  - destruct s as [|c s]; [reflexivity|].
    destruct (a =? c)%N; [now apply IH|reflexivity].
Qed.

Lemma plus_greedy_inv (cls : char -> bool) (s taken : str)
  (k : str -> str -> option R) (r : R) :
  plus_greedy cls s taken k = Some r ->
  exists run s',
    run <> [] /\ forallb cls run = true /\ s = run ++ s'
    /\ k (taken ++ run) s' = Some r.
Proof.
  revert taken. induction s as [|c s IH]; intros taken H; simpl in *.
  - discriminate.
  - destruct (cls c) eqn:Hc; [|discriminate].
    destruct (plus_greedy cls s (taken ++ [c]) k) eqn:Hrec.
    + injection H as ->.
      destruct (IH _ Hrec) as (run & s' & _ & Hall & -> & Hk).
      exists (c :: run), s'. rewrite <- app_assoc in Hk. simpl in *.
      rewrite Hc. repeat split; try assumption. discriminate.
    + exists [c], s. simpl. rewrite Hc.
      repeat split; try assumption. discriminate.
Qed.

Lemma star_lazy_inv (s taken : str) (k : str -> str -> option R) (r : R) :
  star_lazy s taken k = Some r ->
  exists body s',
    s = body ++ s' /\ k (taken ++ body) s' = Some r
    /\ forall b1 b2, body = b1 ++ b2 -> b2 <> [] ->
                     k (taken ++ b1) (b2 ++ s') = None.
Proof.
  revert taken. induction s as [|c s IH]; intros taken H; simpl in *.
  - destruct (k taken []) eqn:Hk; [|discriminate].
    exists [], [].
    split; [reflexivity|split; [rewrite app_nil_r; congruence|]].
    intros b1 b2 Hb. symmetry in Hb.
    apply app_eq_nil in Hb as [_ ->]. congruence.
  - destruct (k taken (c :: s)) eqn:Hk.
    + exists [], (c :: s).
      split; [reflexivity|split; [rewrite app_nil_r; congruence|]].
      intros b1 b2 Hb. symmetry in Hb.
      apply app_eq_nil in Hb as [_ ->]. congruence.
    + destruct (IH _ H) as (body & s' & -> & Hk' & Hmin).
      exists (c :: body), s'. rewrite <- app_assoc in Hk'.
      repeat split; [assumption|].
      intros [|x b1] b2 Hb Hne; simpl in Hb.
      * subst b2. now rewrite app_nil_r.
      * injection Hb as -> ->.
        specialize (Hmin b1 b2 eq_refl Hne).
        now rewrite <- app_assoc in Hmin.
Qed.

Lemma literal_fail (p s : str) (k : str -> option R) :
  startsWith p s = false -> literal p s k = None.
Proof.
  revert s. induction p as [|a p IH]; intros s H; simpl in *;
    [discriminate|].
  destruct s as [|c s]; [reflexivity|].
  destruct (a =? c)%N; [now apply IH|reflexivity].
Qed.

(** The greedy run stops where the class stops: when the continuation
    accepts the longest run, this is the match. *)
Lemma plus_greedy_longest (cls : char -> bool) (run s' taken : str)
  (k : str -> str -> option R) (r : R) :
  run <> [] -> forallb cls run = true ->
  match s' with [] => True | c :: _ => cls c = false end ->
  k (taken ++ run) s' = Some r ->
  plus_greedy cls (run ++ s') taken k = Some r.
Proof.
  revert taken. induction run as [|c run IH]; intros taken Hne Hall Hstop Hk;
    [contradiction|].
  simpl in Hall. apply andb_true_iff in Hall as [Hc Hall].
  simpl. rewrite Hc.
  destruct run as [|c' run'].
  - simpl. destruct s' as [|x s'']; simpl; [exact Hk|].
    rewrite Hstop. exact Hk.
  - rewrite (IH (taken ++ [c])); try assumption; try discriminate;
      [reflexivity|].
    now rewrite <- app_assoc.
Qed.

(** The lazy run stops at the first position where the continuation
    accepts. *)
Lemma star_lazy_first (body s' taken : str) (k : str -> str -> option R)
  (r : R) :
  (forall b1 b2, body = b1 ++ b2 -> b2 <> [] ->
                 k (taken ++ b1) (b2 ++ s') = None) ->
  k (taken ++ body) s' = Some r ->
  star_lazy (body ++ s') taken k = Some r.
Proof.
  revert taken. induction body as [|c body IH]; intros taken Hmin Hk.
  - rewrite app_nil_r in Hk. simpl.
    destruct s' as [|x s'']; simpl; now rewrite Hk.
  - simpl.
    pose proof (Hmin [] (c :: body) eq_refl) as H0.
    rewrite app_nil_r in H0. simpl in H0. rewrite H0 by discriminate.
    apply IH.
    + intros b1 b2 Hb Hne. rewrite <- app_assoc. simpl.
      apply (Hmin (c :: b1) b2); [now rewrite Hb|exact Hne].
    + now rewrite <- app_assoc.
Qed.

End RegexFacts.

(** ** The block expression *)

Section BlockFacts.

(** The part of [blockRegex] after the tag name and the parameter. *)
Lemma after_open_inv (s tag : str) (param : option str) (s3 : str)
  (m : Match) (rest : str) :
  literal (lit "]") s3 (fun s4 =>
    star_lazy s4 [] (fun body s5 =>
      literal (closer tag) s5 (fun rest =>
        Some (mkMatch (consumed s rest) tag param body, rest))))
  = Some (m, rest) ->
  exists body,
    s3 = lit "]" ++ body ++ closer tag ++ rest
    /\ m = mkMatch (consumed s rest) tag param body
    /\ first_closer tag body (closer tag ++ rest).
Proof.
  intros H.
  apply literal_inv in H as (s4 & -> & H).
  apply star_lazy_inv in H as (body & s5 & -> & H & Hmin).
  apply literal_inv in H as (rest' & -> & H).
  injection H as <- <-.
  exists body. repeat split.
  intros b1 b2 Hb Hne.
  specialize (Hmin b1 b2 Hb Hne). cbv beta in Hmin.
  apply literal_none in Hmin; [exact Hmin|discriminate].
Qed.

(** A match of [blockRegex] at the start of the input: an opening marker
    with a tag name of upper-case letters, a body, and the closing marker of
    the same tag name at its first occurrence after the opening marker. *)
Lemma block_at_inv (s : str) (m : Match) (rest : str) :
  block_at s = Some (m, rest) ->
  tagName m <> [] /\ forallb isUpper (tagName m) = true
  /\ (forall p, tagParam m = Some p ->
                p <> [] /\ forallb isParamChar p = true)
  /\ whole m
     = opener (tagName m) (tagParam m) ++ blockContent m
         ++ closer (tagName m)
  /\ s = whole m ++ rest
  /\ first_closer (tagName m) (blockContent m) (closer (tagName m) ++ rest).
Proof.
  unfold block_at. intros H.
  apply literal_inv in H as (s1 & -> & H).
  apply plus_greedy_inv in H as (tag & s2 & Htag & Hup & -> & H).
  change ([] ++ tag) with tag in H.
  cbv zeta in H. unfold optional in H.
  match type of H with
  | match ?alt with _ => _ end = _ => destruct alt as [[m' rest']|] eqn:Halt
  end.
  - injection H as -> ->.
    apply literal_inv in Halt as (s3 & -> & Halt).
    apply plus_greedy_inv in Halt as (p & s4 & Hp & Hpc & -> & Halt).
    change ([] ++ p) with p in Halt.
    apply after_open_inv in Halt as (body & -> & -> & Hmin).
    assert (Hs : lit "[" ++ tag ++ lit "=" ++ p ++ lit "]" ++ body
                   ++ closer tag ++ rest
                 = (opener tag (Some p) ++ body ++ closer tag) ++ rest).
    { unfold opener, param_text.
      repeat (rewrite <- ?app_assoc; simpl). reflexivity. }
    rewrite (@consumed_eq _ _ _ Hs). simpl.
    split; [assumption|]. split; [assumption|].
    split; [intros p' [= <-]; now split|].
    split; [reflexivity|]. split; [exact Hs|assumption].
  - apply after_open_inv in H as (body & -> & -> & Hmin).
    assert (Hs : lit "[" ++ tag ++ lit "]" ++ body ++ closer tag ++ rest
                 = (opener tag None ++ body ++ closer tag) ++ rest).
    { unfold opener, param_text.
      repeat (rewrite <- ?app_assoc; simpl). reflexivity. }
    rewrite (@consumed_eq _ _ _ Hs). simpl.
    split; [assumption|]. split; [assumption|].
    split; [discriminate|].
    split; [reflexivity|]. split; [exact Hs|assumption].
Qed.

(** Conversely, an opening marker, a body and the first closing marker of
    the same tag name are matched as one block with this body. *)
Lemma block_at_complete (tag : str) (param : option str) (body rest : str) :
  tag <> [] -> forallb isUpper tag = true -> valid_param param ->
  first_closer tag body (closer tag ++ rest) ->
  block_at (opener tag param ++ body ++ closer tag ++ rest)
  = Some (mkMatch (opener tag param ++ body ++ closer tag) tag param body,
          rest).
Proof.
  intros Htag Hup Hparam Hfirst.
  set (s := opener tag param ++ body ++ closer tag ++ rest).
  assert (Hs : s = (opener tag param ++ body ++ closer tag) ++ rest)
    by (unfold s; now rewrite <- !app_assoc).
  assert (Hafter : forall prm,
    literal (lit "]") (lit "]" ++ body ++ closer tag ++ rest) (fun s4 =>
      star_lazy s4 [] (fun body' s5 =>
        literal (closer tag) s5 (fun rest' =>
          Some (mkMatch (consumed s rest') tag prm body', rest'))))
    = Some (mkMatch (opener tag param ++ body ++ closer tag) tag prm body,
            rest)).
  { intros prm. rewrite literal_app.
    apply star_lazy_first.
    - intros b1 b2 Hb Hne. apply literal_fail. now apply (Hfirst b1 b2).
    - cbn [app]. rewrite literal_app, (@consumed_eq _ _ _ Hs). reflexivity. }
  unfold block_at. fold s.
  assert (Hopen : s = lit "[" ++ tag ++ param_text param ++ lit "]" ++ body
                        ++ closer tag ++ rest)
    by (unfold s, opener; now rewrite <- !app_assoc).
  rewrite Hopen at 1. rewrite literal_app.
  apply plus_greedy_longest; try assumption.
  - destruct param; reflexivity.
  - cbv zeta. cbn [app]. unfold optional.
    destruct param as [p|]; cbn [param_text].
    + destruct Hparam as [Hp Hpc].
      rewrite <- app_assoc, literal_app.
      rewrite (@plus_greedy_longest _ isParamChar p
                 (lit "]" ++ body ++ closer tag ++ rest) [] _ _ Hp Hpc
                 eq_refl (Hafter (Some p))).
      reflexivity.
    + cbn [app]. rewrite Hafter. reflexivity.
Qed.

End BlockFacts.

(** ** The loop of [renderContent] *)

Section LoopFacts.

Lemma block_at_shorter (s : str) (m : Match) (rest : str) :
  block_at s = Some (m, rest) -> length rest < length s.
Proof.
  intros H. apply block_at_inv in H as (_ & _ & _ & Hw & -> & _).
  rewrite Hw. unfold opener. rewrite !length_app. simpl. lia.
Qed.

(** [exec] finds the leftmost match: the content is the skipped text, the
    match and the rest, and the expression matches at no position of the
    skipped text. *)
Lemma exec_inv (s skipped pre : str) (m : Match) (rest : str) :
  exec s skipped = Some (pre, m, rest) ->
  exists gap tail,
    pre = skipped ++ gap /\ s = gap ++ tail
    /\ block_at tail = Some (m, rest)
    /\ forall g1 g2, gap = g1 ++ g2 -> g2 <> [] ->
                     block_at (g2 ++ tail) = None.
Proof.
  revert skipped. induction s as [|c s IH]; intros skipped H.
  - simpl in H. destruct (block_at []) as [[m' r']|] eqn:Hb; [|discriminate].
    apply block_at_shorter in Hb. simpl in Hb. lia.
  - simpl in H. destruct (block_at (c :: s)) as [[m' r']|] eqn:Hb.
    + injection H as <- <- <-.
      exists [], (c :: s). rewrite app_nil_r.
      repeat split; try assumption.
      intros g1 g2 Hg Hne. symmetry in Hg.
      apply app_eq_nil in Hg as [_ ->]. congruence.
    + apply IH in H as (gap & tail & -> & -> & Htail & Hleft).
      exists (c :: gap), tail. rewrite <- app_assoc.
      repeat split; try assumption.
      intros [|x g1] g2 Hg Hne; simpl in Hg.
      * subst g2. exact Hb.
      * injection Hg as -> ->. exact (Hleft g1 g2 eq_refl Hne).
Qed.

Lemma exec_shorter (s pre : str) (m : Match) (rest : str) :
  exec s [] = Some (pre, m, rest) ->
  s = pre ++ whole m ++ rest /\ length rest < length s.
Proof.
  intros H. apply exec_inv in H as (gap & tail & -> & -> & Hb & _).
  pose proof (block_at_shorter _ Hb) as Hlt.
  apply block_at_inv in Hb as (_ & _ & _ & _ & Hs & _).
  split; [simpl; congruence|]. rewrite length_app. lia.
Qed.

(** The fuel of [render_loop] is enough once it is at least the length of
    the content. *)
Lemma render_loop_fuel (n1 n2 : nat) (s : str) :
  length s <= n1 -> length s <= n2 -> render_loop n1 s = render_loop n2 s.
Proof.
  revert n2 s. induction n1 as [|n1 IH]; intros [|n2] s H1 H2; simpl;
    try reflexivity.
  - destruct s; [reflexivity|simpl in H1; lia].
  - destruct s; [reflexivity|simpl in H2; lia].
  - destruct (exec s []) as [[[pre m] rest]|] eqn:He; [|reflexivity].
    apply exec_shorter in He as [_ Hlt].
    f_equal. f_equal. apply IH; lia.
Qed.

Lemma renderContent_unfold (content : str) :
  renderContent content
  = match exec content [] with
    | Some (pre, m, rest) =>
        renderText (trim pre) ++ render_block m :: renderContent rest
    | None => renderText (trim content)
    end.
Proof.
  unfold renderContent.
  destruct content as [|c content]; [reflexivity|].
  change (length (c :: content)) with (S (length content)).
  cbn [render_loop].
  destruct (exec (c :: content) []) as [[[pre m] rest]|] eqn:He;
    [|reflexivity].
  apply exec_shorter in He as [_ Hlt]. simpl in Hlt.
  f_equal. f_equal. apply render_loop_fuel; lia.
Qed.

Lemma matches_loop_fuel (n1 n2 : nat) (s : str) :
  length s <= n1 -> length s <= n2 -> matches_loop n1 s = matches_loop n2 s.
Proof.
  revert n2 s. induction n1 as [|n1 IH]; intros [|n2] s H1 H2; simpl;
    try reflexivity.
  - destruct s; [reflexivity|simpl in H1; lia].
  - destruct s; [reflexivity|simpl in H2; lia].
  - destruct (exec s []) as [[[pre m] rest]|] eqn:He; [|reflexivity].
    apply exec_shorter in He as [_ Hlt].
    rewrite (IH n2 rest) by lia. reflexivity.
Qed.

Lemma matchAll_unfold (content : str) :
  matchAll content
  = match exec content [] with
    | Some (gap, m, rest) =>
        ((gap, m) :: fst (matchAll rest), snd (matchAll rest))
    | None => ([], content)
    end.
Proof.
  unfold matchAll.
  destruct content as [|c content]; [reflexivity|].
  change (length (c :: content)) with (S (length content)).
  cbn [matches_loop].
  destruct (exec (c :: content) []) as [[[pre m] rest]|] eqn:He;
    [|reflexivity].
  apply exec_shorter in He as [_ Hlt]. simpl in Hlt.
  rewrite (@matches_loop_fuel (length content) (length rest) rest) by lia.
  now destruct (matches_loop (length rest) rest).
Qed.

Lemma exec_cons (c : char) (s skipped : str) :
  exec (c :: s) skipped
  = match block_at (c :: s) with
    | Some (m, rest) => Some (skipped, m, rest)
    | None => exec s (skipped ++ [c])
    end.
Proof. reflexivity. Qed.

Lemma exec_complete (pre tail skipped : str) (m : Match) (rest : str) :
  (forall g1 g2, pre = g1 ++ g2 -> g2 <> [] ->
                 block_at (g2 ++ tail) = None) ->
  block_at tail = Some (m, rest) ->
  exec (pre ++ tail) skipped = Some (skipped ++ pre, m, rest).
Proof.
  revert skipped. induction pre as [|c pre IH]; intros skipped Hleft Hb.
  - rewrite app_nil_r. cbn [app].
    destruct tail as [|x tail]; [discriminate Hb|].
    now rewrite exec_cons, Hb.
  - assert (H0 : block_at (c :: pre ++ tail) = None)
      by (apply (Hleft [] (c :: pre)); [reflexivity|discriminate]).
    cbn [app]. rewrite exec_cons, H0.
    rewrite (IH (skipped ++ [c])); [now rewrite <- app_assoc| |exact Hb].
    intros g1 g2 Hg Hne. apply (Hleft (c :: g1) g2); [now rewrite Hg|exact Hne].
Qed.

(** A span of inline code takes at least its two backticks. *)
Lemma span_at_shorter (s span rest : str) :
  span_at s = Some (span, rest) -> length rest < length s.
Proof.
  unfold span_at. intros H.
  apply literal_inv in H as (s1 & -> & H).
  apply plus_greedy_inv in H as (run & s2 & _ & _ & -> & H).
  apply literal_inv in H as (rest' & -> & H).
  injection H as _ <-. rewrite !length_app. simpl. lia.
Qed.

(** The fuel of [split_spans] is enough once it is at least the length of
    the text. *)
Lemma split_spans_fuel (n1 n2 : nat) (s piece : str) :
  length s <= n1 -> length s <= n2 ->
  split_spans n1 s piece = split_spans n2 s piece.
Proof.
  revert n2 s piece.
  induction n1 as [|n1 IH]; intros [|n2] s piece H1 H2; simpl;
    try reflexivity.
  - destruct s; [now rewrite app_nil_r|simpl in H1; lia].
  - destruct s; [now rewrite app_nil_r|simpl in H2; lia].
  - destruct s as [|c s]; [reflexivity|].
    destruct (span_at (c :: s)) as [[span rest]|] eqn:Hspan.
    + apply span_at_shorter in Hspan. simpl in *.
      rewrite (IH n2 rest []) by lia. reflexivity.
    + simpl in *. apply IH; lia.
Qed.

Lemma renderText_length (text : str) :
  length (renderText text) = if truthy text then 1 else 0.
Proof. unfold renderText. now destruct (truthy text). Qed.

Lemma render_loop_count (n : nat) (s : str) :
  length (render_loop n s)
  = length (fst (matches_loop n s))
    + length (filter (fun gap => truthy (trim gap))
                (map fst (fst (matches_loop n s))
                   ++ [snd (matches_loop n s)])).
Proof.
  revert s. induction n as [|n IH]; intros s; simpl.
  - rewrite renderText_length. now destruct (truthy (trim s)).
  - destruct (exec s []) as [[[pre m] rest]|] eqn:He; simpl.
    + rewrite length_app, renderText_length. simpl. rewrite IH.
      destruct (matches_loop n rest) as [ms last]. simpl.
      destruct (truthy (trim pre)); simpl; lia.
    + rewrite renderText_length. now destruct (truthy (trim s)).
Qed.

Lemma matches_loop_cover (n : nat) (s : str) :
  s = flat_map (fun gm => fst gm ++ whole (snd gm)) (fst (matches_loop n s))
        ++ snd (matches_loop n s).
Proof.
  revert s. induction n as [|n IH]; intros s; simpl; [reflexivity|].
  destruct (exec s []) as [[[pre m] rest]|] eqn:He; [|reflexivity].
  apply exec_shorter in He as [Hs _].
  specialize (IH rest). destruct (matches_loop n rest) as [ms last].
  simpl in *. rewrite <- !app_assoc, <- IH. exact Hs.
Qed.

End LoopFacts.

(** The nodes of [renderContent] counted by the matches of the loop: one
    for each match and one for each text around the matches that is not empty
    once trimmed; the matches and the texts make up the content. *)
Lemma renderContent_count_matches (content : str) :
  length (renderContent content)
  = length (blocks content)
    + length (filter (fun gap => truthy (trim gap)) (gaps content))
  /\ length (gaps content) = length (blocks content) + 1
  /\ content
     = flat_map (fun gm => fst gm ++ whole (snd gm)) (fst (matchAll content))
         ++ snd (matchAll content).
Proof.
  unfold renderContent, blocks, gaps, matchAll.
  split; [|split].
  - rewrite render_loop_count, length_map. reflexivity.
  - rewrite length_app, !length_map. reflexivity.
  - apply matches_loop_cover.
Qed.

(** ** A content described by its markers *)

Section MarkerFacts.

Lemma startsWith_refl (p : str) : startsWith p p = true.
Proof.
  induction p as [|a p IH]; [reflexivity|]. cbn [startsWith].
  now rewrite N.eqb_refl.
Qed.

Lemma occursb_false (p s : str) :
  occursb p s = false ->
  forall b1 b2, s = b1 ++ b2 -> startsWith p b2 = false.
Proof.
  induction s as [|c s IH]; intros H b1 b2 Hs.
  - symmetry in Hs. apply app_eq_nil in Hs as [_ ->].
    cbn [occursb] in H. now apply orb_false_iff in H as [H _].
  - cbn [occursb] in H. apply orb_false_iff in H as [H0 H1].
    destruct b1 as [|x b1]; cbn [app] in Hs.
    + now subst b2.
    + injection Hs as _ Hs. now apply (IH H1 b1).
Qed.

(** A text that begins [b ++ x] begins [b], or runs over the end of [b]. *)
Lemma startsWith_app_split (p b x : str) :
  startsWith p (b ++ x) = true ->
  startsWith p b = true
  \/ exists p2, p = b ++ p2 /\ startsWith p2 x = true.
Proof.
  revert p. induction b as [|c b IH]; intros p H.
  - right. now exists p.
  - destruct p as [|a p]; [now left|].
    cbn [app startsWith] in H |- *.
    apply andb_true_iff in H as [Hac H].
    apply N.eqb_eq in Hac. subst a.
    destruct (IH _ H) as [Hb|(p2 & -> & Hp2)].
    + left. now rewrite N.eqb_refl.
    + right. now exists p2.
Qed.

(** For a tag name of upper-case letters, a closing marker that does not
    occur in the body is the first one after the opening marker: it cannot
    begin in the body and end after it. *)
Lemma closer_is_first (tag body rest : str) :
  forallb isUpper tag = true ->
  occursb (closer tag) body = false ->
  first_closer tag body (closer tag ++ rest).
Proof.
  intros Hup Hocc b1 b2 Hb Hne.
  destruct (startsWith (closer tag) (b2 ++ closer tag ++ rest)) eqn:E;
    [exfalso|reflexivity].
  pose proof (@occursb_false _ _ Hocc b1 b2 Hb) as Hin.
  apply startsWith_app_split in E as [E|(p2 & Hp & E)]; [congruence|].
  destruct p2 as [|c p2].
  - rewrite app_nil_r in Hp. rewrite Hp, startsWith_refl in Hin.
    discriminate.
  - change (closer tag) with (91 :: 47 :: tag ++ [93])%N in Hp, E.
    cbn [app startsWith] in E. apply andb_true_iff in E as [Hc _].
    apply N.eqb_eq in Hc. subst c.
    destruct b2 as [|x b2]; [contradiction|].
    cbn [app] in Hp. injection Hp as _ Hp.
    assert (Hin91 : In 91%N (47%N :: tag ++ [93%N])).
    { rewrite Hp. apply in_or_app. right. now left. }
    destruct Hin91 as [H|H]; [discriminate|].
    apply in_app_or in H as [H|[H|[]]]; [|discriminate].
    rewrite forallb_forall in Hup. specialize (Hup _ H). discriminate.
Qed.

Lemma skipRun_run (cls : char -> bool) (run x : str) :
  forallb cls run = true ->
  match x with [] => True | c :: _ => cls c = false end ->
  skipRun cls (run ++ x) = x.
Proof.
  intros Hall Hx. induction run as [|c run IH]; cbn [app skipRun].
  - destruct x as [|c x]; [reflexivity|]. cbn [skipRun]. now rewrite Hx.
  - cbn [forallb] in Hall. apply andb_true_iff in Hall as [-> Hall].
    now apply IH.
Qed.

Lemma skipRun_app (cls : char -> bool) (g tail : str) :
  match tail with [] => True | c :: _ => cls c = false end ->
  skipRun cls (g ++ tail) = skipRun cls g ++ tail.
Proof.
  intros Htail. induction g as [|c g IH]; cbn [app skipRun].
  - destruct tail as [|c tail]; [reflexivity|]. cbn [skipRun].
    now rewrite Htail.
  - destruct (cls c); [exact IH|reflexivity].
Qed.

Lemma run_then_run (cls : char -> bool) (next : str -> bool) (run x : str) :
  run <> [] -> forallb cls run = true ->
  match x with [] => True | c :: _ => cls c = false end ->
  run_then cls next (run ++ x) = next x.
Proof.
  intros Hne Hall Hx.
  pose proof (skipRun_run cls run x Hall Hx) as Hskip.
  destruct run as [|c run]; [contradiction|].
  cbn [forallb] in Hall. apply andb_true_iff in Hall as [Hc _].
  unfold run_then. cbn [app] in *. now rewrite Hc, Hskip.
Qed.

(** An opening marker begins every match of the block expression. *)
Lemma opener_at_opener (tag : str) (param : option str) (x : str) :
  tag <> [] -> forallb isUpper tag = true -> valid_param param ->
  opener_at (opener tag param ++ x) = true.
Proof.
  intros Htag Hup Hparam. unfold opener.
  change (lit "[" ++ tag ++ param_text param ++ lit "]")
    with (LBRACKET :: tag ++ param_text param ++ [93%N]).
  cbn [app opener_at]. rewrite N.eqb_refl. cbn [andb].
  rewrite <- !app_assoc.
  rewrite run_then_run; try assumption.
  - unfold after_tag. destruct param as [p|]; [|reflexivity].
    destruct Hparam as [Hp Hpc].
    change (param_text (Some p)) with (61%N :: p).
    cbn [app closing]. cbn [N.eqb Pos.eqb orb andb].
    rewrite run_then_run; try assumption; reflexivity.
  - destruct param; reflexivity.
Qed.

Lemma block_at_opener (s : str) (m : Match) (rest : str) :
  block_at s = Some (m, rest) -> opener_at s = true.
Proof.
  intros H. apply block_at_inv in H as (Htag & Hup & Hparam & Hw & -> & _).
  rewrite Hw, <- app_assoc. apply opener_at_opener; try assumption.
  destruct (tagParam m) as [p|]; [now apply Hparam|exact I].
Qed.

Lemma has_opener_false (gap : str) :
  has_opener gap = false ->
  forall g1 g2, gap = g1 ++ g2 -> opener_at g2 = false.
Proof.
  induction gap as [|c gap IH]; intros H g1 g2 Hg.
  - symmetry in Hg. apply app_eq_nil in Hg as [_ ->]. reflexivity.
  - cbn [has_opener] in H. apply orb_false_iff in H as [H0 H1].
    destruct g1 as [|x g1]; cbn [app] in Hg.
    + now subst g2.
    + injection Hg as _ Hg. now apply (IH H1 g1).
Qed.

Lemma stops_class (cls : char -> bool) (tail : str) :
  cls LBRACKET = false -> stops tail ->
  match tail with [] => True | c :: _ => cls c = false end.
Proof. destruct tail as [|c tail]; [easy|]. cbn. now intros H ->. Qed.

Lemma closing_gap (tail : str) :
  stops tail -> forall s, closing (s ++ tail) = true -> closing s = true.
Proof.
  intros Hstop [|c s]; cbn [app closing]; [|easy].
  destruct tail as [|x tail]; [easy|]. cbn in Hstop. subst x.
  cbv. discriminate.
Qed.

Lemma run_then_gap (cls : char -> bool) (next : str -> bool) (tail : str) :
  cls LBRACKET = false -> stops tail ->
  (forall s, next (s ++ tail) = true -> next s = true) ->
  forall s, run_then cls next (s ++ tail) = true -> run_then cls next s = true.
Proof.
  intros Hcls Hstop Hnext [|c s].
  - cbn [app]. destruct tail as [|x tail]; [easy|].
    cbn in Hstop. subst x. cbn [run_then]. now rewrite Hcls.
  - cbn [app run_then]. intros H. apply andb_true_iff in H as [Hc Hn].
    change (c :: s ++ tail) with ((c :: s) ++ tail) in Hn.
    rewrite skipRun_app in Hn by now apply stops_class.
    rewrite Hc. now apply Hnext.
Qed.

Lemma after_tag_gap (tail : str) :
  stops tail -> forall s, after_tag (s ++ tail) = true -> after_tag s = true.
Proof.
  intros Hstop s H. unfold after_tag in *.
  apply orb_true_iff in H as [H|H].
  - apply orb_true_iff. left. now apply (@closing_gap tail Hstop).
  - apply orb_true_iff. right. destruct s as [|x s].
    + cbn [app] in H. destruct tail as [|y tail]; [discriminate|].
      cbn in Hstop. subst y. discriminate.
    + cbn [app] in H. apply andb_true_iff in H as [-> H].
      now apply (@run_then_gap isParamChar closing tail eq_refl Hstop
                   (@closing_gap tail Hstop)).
Qed.

(** An opening marker that begins in a text and is complete once the next
    opening marker or the end follows, is complete in the text. *)
Lemma opener_at_gap (g tail : str) :
  stops tail -> g <> [] -> opener_at (g ++ tail) = true -> opener_at g = true.
Proof.
  intros Hstop Hne H. destruct g as [|c g]; [contradiction|].
  cbn [app opener_at] in *. apply andb_true_iff in H as [-> H].
  now apply (@run_then_gap isUpper after_tag tail eq_refl Hstop
               (@after_tag_gap tail Hstop)).
Qed.

Lemma stops_block (b : BlockSrc) (x : str) : stops (block_text b ++ x).
Proof. exact eq_refl. Qed.

(** No block begins in a text without opening marker, whatever opening
    marker follows the text. *)
Lemma free_text_no_block (gap tail : str) :
  free_text gap = true -> stops tail ->
  forall g1 g2, gap = g1 ++ g2 -> g2 <> [] -> block_at (g2 ++ tail) = None.
Proof.
  intros Hfree Hstop g1 g2 Hg Hne.
  apply negb_true_iff in Hfree.
  destruct (block_at (g2 ++ tail)) as [[m rest]|] eqn:E; [|reflexivity].
  apply block_at_opener in E. apply (@opener_at_gap g2 tail Hstop Hne) in E.
  rewrite (@has_opener_false _ Hfree g1 g2 Hg) in E. discriminate.
Qed.

Lemma exec_none (s skipped : str) :
  (forall g1 g2, s = g1 ++ g2 -> block_at g2 = None) ->
  exec s skipped = None.
Proof.
  revert skipped. induction s as [|c s IH]; intros skipped H.
  - cbn [exec]. now rewrite (H [] [] eq_refl).
  - rewrite exec_cons, (H [] (c :: s) eq_refl).
    apply IH. intros g1 g2 Hg. apply (H (c :: g1) g2). now rewrite Hg.
Qed.

Lemma free_text_exec (gap : str) :
  free_text gap = true -> exec gap [] = None.
Proof.
  intros Hfree. apply exec_none. intros g1 g2 Hg.
  destruct g2 as [|c g2]; [reflexivity|].
  rewrite <- (app_nil_r (c :: g2)).
  apply (@free_text_no_block gap [] Hfree I g1 (c :: g2) Hg). discriminate.
Qed.

(** The block expression matches a balanced block where it is written, up
    to the closing marker written after its body. *)
Lemma balanced_block_at (b : BlockSrc) (rest : str) :
  balanced_block b = true ->
  block_at (block_text b ++ rest) = Some (match_of b, rest).
Proof.
  unfold balanced_block. intros H.
  apply andb_true_iff in H as [H Hocc].
  apply andb_true_iff in H as [H Hparam].
  apply andb_true_iff in H as [Htag Hup].
  apply negb_true_iff in Hocc.
  unfold block_text, match_of. rewrite <- !app_assoc.
  apply block_at_complete.
  - destruct (src_tag b); [discriminate|discriminate].
  - exact Hup.
  - destruct (src_param b) as [p|]; [|exact I].
    cbn [param_ok] in Hparam. apply andb_true_iff in Hparam as [Hp Hpc].
    split; [|exact Hpc]. destruct p; discriminate.
  - now apply closer_is_first.
Qed.

(** The loop on a content written as texts and balanced blocks finds the
    blocks that are written, with the texts written around them, and
    [renderContent] puts one node for each block and one for each text that
    holds something else than white space. *)
Lemma assemble_matches (items : list (BlockSrc * str)) :
  forall gap0, free_text gap0 = true ->
  forallb balanced_item items = true ->
  blocks (assemble gap0 items) = map (fun item => match_of (fst item)) items
  /\ gaps (assemble gap0 items) = gap0 :: map snd items
  /\ length (renderContent (assemble gap0 items))
     = length items + length (filter hasInk (gap0 :: map snd items)).
Proof.
  unfold blocks, gaps.
  induction items as [|[b gap] more IH]; intros gap0 Hfree Hitems.
  - cbn [assemble]. rewrite app_nil_r.
    rewrite matchAll_unfold, renderContent_unfold, (@free_text_exec _ Hfree).
    rewrite renderText_length, truthy_trim. cbn [fst snd map app filter].
    split; [reflexivity|split; [reflexivity|]].
    now destruct (hasInk gap0).
  - cbn [forallb] in Hitems. apply andb_true_iff in Hitems as [Hitem Hmore].
    unfold balanced_item in Hitem. cbn [fst snd] in Hitem.
    apply andb_true_iff in Hitem as [Hb Hgap].
    destruct (IH gap Hgap Hmore) as (IHb & IHg & IHn).
    cbn [assemble].
    assert (He : exec (gap0 ++ block_text b ++ assemble gap more) []
                 = Some (gap0, match_of b, assemble gap more)).
    { apply (@exec_complete gap0 _ [] (match_of b) (assemble gap more)).
      - apply (@free_text_no_block gap0 _ Hfree). apply stops_block.
      - now apply balanced_block_at. }
    rewrite matchAll_unfold, renderContent_unfold, He.
    cbn [fst snd map app]. rewrite IHb.
    split; [reflexivity|]. split.
    + change (gap0 :: map fst (fst (matchAll (assemble gap more)))
                ++ [snd (matchAll (assemble gap more))])
        with (gap0 :: (map fst (fst (matchAll (assemble gap more)))
                         ++ [snd (matchAll (assemble gap more))])).
      now rewrite IHg.
    + rewrite length_app, renderText_length, truthy_trim.
      cbn [length filter]. rewrite IHn. cbn [filter].
      destruct (hasInk gap0); cbn [length]; lia.
Qed.

End MarkerFacts.

(** C2. A content with balanced markers is a first text and blocks each
    followed by a text, where every block is an opening marker, a body in
    which the closing marker of its tag does not occur, and this closing
    marker, and where no opening marker begins in the texts.  For such a
    content [renderContent] returns as many nodes as there are blocks
    written plus texts that hold something else than white space; the texts
    of white space only give no node.  The matches of the loop are the
    blocks written, and the texts between the matches are the texts
    written. *)
Theorem C2_block_count (gap0 : str) (items : list (BlockSrc * str)) :
  free_text gap0 = true ->
  forallb balanced_item items = true ->
  length (renderContent (assemble gap0 items))
  = length items + length (filter hasInk (gap0 :: map snd items))
  /\ blocks (assemble gap0 items) = map (fun item => match_of (fst item)) items
  /\ gaps (assemble gap0 items) = gap0 :: map snd items.
Proof.
  intros Hfree Hitems.
  destruct (@assemble_matches items gap0 Hfree Hitems) as (Hb & Hg & Hn).
  split; [exact Hn|split; [exact Hb|exact Hg]].
Qed.

(** A table block and a code block with a text before them, white space
    between them and a text after them: four nodes. *)
Lemma C2_block_count_witness :
  let table := mkBlockSrc (lit "TABLE") None
                 ([LF] ++ lit "a|b" ++ [LF] ++ lit "-|-" ++ [LF]
                    ++ lit "1|2" ++ [LF]) in
  let code := mkBlockSrc (lit "CODE") (Some (lit "sql"))
                (lit "SELECT [a] FROM t") in
  let items := [(table, [LF; SPACE]); (code, lit " Which rows?")] in
  let content := assemble (lit "Given: ") items in
  free_text (lit "Given: ") = true
  /\ forallb balanced_item items = true
  /\ length (renderContent content) = 4
  /\ blocks content = [match_of table; match_of code]
  /\ gaps content = [lit "Given: "; [LF; SPACE]; lit " Which rows?"].
Proof.
  intros table code items content.
  assert (Hfree : free_text (lit "Given: ") = true) by reflexivity.
  assert (Hitems : forallb balanced_item items = true) by reflexivity.
  split; [exact Hfree|]. split; [exact Hitems|].
  exact (@C2_block_count (lit "Given: ") items Hfree Hitems).
Defined.

(** What a step of the loop does with the match it finds. *)
Lemma exec_step (content pre : str) (m : Match) (rest : str) :
  exec content [] = Some (pre, m, rest) ->
  content = pre ++ whole m ++ rest
  /\ whole m
     = opener (tagName m) (tagParam m) ++ blockContent m
         ++ closer (tagName m)
  /\ renderContent content
     = renderText (trim pre) ++ render_block m :: renderContent rest.
Proof.
  intros He.
  pose proof (exec_shorter _ He) as [Hs _].
  pose proof (renderContent_unfold content) as Hr.
  rewrite He in Hr.
  apply exec_inv in He as (gap & tail & _ & _ & Hb & _).
  apply block_at_inv in Hb as (_ & _ & _ & Hw & _ & _).
  tauto.
Qed.

(** A block of a tag other than [TABLE] and [CODE] is shown as a warning
    with the whole matched text. *)
Lemma unknown_tag_warning (m : Match) :
  tagName m <> lit "TABLE" -> tagName m <> lit "CODE" ->
  render_block m = warning_block (whole m).
Proof.
  intros Ht Hc. unfold render_block.
  destruct (JS.eqb (tagName m) (lit "TABLE")) eqn:E1;
    [now apply eqb_eq in E1|].
  destruct (JS.eqb (tagName m) (lit "CODE")) eqn:E2;
    [now apply eqb_eq in E2|].
  reflexivity.
Qed.

(** C6. A block that [renderContent] finds in a content is an opening marker
    [[TAG]] or [[TAG=param]] with a tag name of upper-case letters, a body,
    and the closing marker of exactly the same tag name; this closing marker
    is the first one after the opening marker (it starts at no position of
    the body), so a closing marker of another tag does not end the block.
    The body is kept as it is: the block gives one node, computed from the
    match alone, and the scan goes on after the closing marker, so no block
    is looked for inside the body.  Conversely, an opening marker before
    which no block starts is closed by the first closing marker of its tag
    name, whatever markers stand in between. *)
Theorem C6_first_same_tag_closer :
  (forall (content pre : str) (m : Match) (rest : str),
      exec content [] = Some (pre, m, rest) ->
      content = pre ++ whole m ++ rest
      /\ whole m
         = opener (tagName m) (tagParam m) ++ blockContent m
             ++ closer (tagName m)
      /\ tagName m <> [] /\ forallb isUpper (tagName m) = true
      /\ first_closer (tagName m) (blockContent m)
           (closer (tagName m) ++ rest)
      /\ renderContent content
         = renderText (trim pre) ++ render_block m :: renderContent rest
      /\ blocks content = m :: blocks rest)
  /\ (forall (pre tag : str) (param : option str) (body rest : str),
        tag <> [] -> forallb isUpper tag = true -> valid_param param ->
        first_closer tag body (closer tag ++ rest) ->
        (forall g1 g2, pre = g1 ++ g2 -> g2 <> [] ->
           block_at (g2 ++ opener tag param ++ body ++ closer tag ++ rest)
           = None) ->
        exec (pre ++ opener tag param ++ body ++ closer tag ++ rest) []
        = Some (pre,
                mkMatch (opener tag param ++ body ++ closer tag)
                  tag param body,
                rest)).
Proof.
  split.
  - intros content pre m rest He.
    pose proof (exec_shorter _ He) as [Hs _].
    pose proof (renderContent_unfold content) as Hr.
    pose proof (matchAll_unfold content) as Hm.
    rewrite He in Hr, Hm.
    apply exec_inv in He as (gap & tail & _ & _ & Hb & _).
    apply block_at_inv in Hb as (Hne & Hup & _ & Hw & _ & Hfirst).
    unfold blocks. rewrite Hm. simpl. tauto.
  - intros pre tag param body rest Htag Hup Hparam Hfirst Hleft.
    apply (exec_complete _ [] Hleft).
    now apply block_at_complete.
Qed.

(** A [CODE] block whose body holds a closing marker of [TABLE] and an
    opening marker of [TABLE]: one code block, closed by [[/CODE]]. *)
Lemma C6_first_same_tag_closer_witness :
  let content := lit "x[CODE]a[/TABLE][TABLE]b[/CODE]c[/TABLE]" in
  let m := mkMatch (lit "[CODE]a[/TABLE][TABLE]b[/CODE]") (lit "CODE") None
             (lit "a[/TABLE][TABLE]b") in
  exec content [] = Some (lit "x", m, lit "c[/TABLE]")
  /\ renderContent content
     = renderText (lit "x") ++ render_block m
         :: renderContent (lit "c[/TABLE]")
  /\ blocks content = [m].
Proof.
  intros content m.
  assert (He : exec content [] = Some (lit "x", m, lit "c[/TABLE]"))
    by reflexivity.
  split; [exact He|].
  destruct (proj1 C6_first_same_tag_closer _ _ _ _ He)
    as (_ & _ & _ & _ & _ & Hr & Hb).
  split; [exact Hr|exact Hb].
Defined.

(** C4. A [TABLE] block whose body has fewer than two non-blank lines: the
    table parser gives [null], and [renderContent] puts for this block one
    [pre] of the error kind, holding the whole matched text from [[TABLE]
    to [[/TABLE]]; it puts no table. *)
Theorem C4_short_table_is_error (content pre : str) (m : Match)
  (rest : str) :
  exec content [] = Some (pre, m, rest) ->
  tagName m = lit "TABLE" ->
  length (nonblank_lines (blockContent m)) < 2 ->
  parseTableData (blockContent m) = None
  /\ render_block m = error_block (whole m)
  /\ (forall c h r, render_block m <> Table c h r)
  /\ whole m
     = opener (lit "TABLE") (tagParam m) ++ blockContent m ++ lit "[/TABLE]"
  /\ content = pre ++ whole m ++ rest
  /\ renderContent content
     = renderText (trim pre) ++ error_block (whole m) :: renderContent rest.
Proof.
  intros He Htag Hlines.
  destruct (exec_step _ He) as (Hs & Hw & Hr).
  rewrite <- table_lines_count in Hlines.
  apply parseTableData_none in Hlines.
  assert (Hblock : render_block m = error_block (whole m)).
  { unfold render_block. rewrite Htag, Hlines. reflexivity. }
  split; [assumption|]. split; [assumption|].
  split; [intros c h r; rewrite Hblock; discriminate|].
  split; [rewrite Hw, Htag; reflexivity|].
  split; [assumption|]. now rewrite Hr, Hblock.
Qed.

Lemma C4_short_table_is_error_witness :
  let content := lit "see [TABLE]a | b[/TABLE]" in
  let m := mkMatch (lit "[TABLE]a | b[/TABLE]") (lit "TABLE") None
             (lit "a | b") in
  parseTableData (lit "a | b") = None
  /\ renderContent content
     = [P [TextNode (lit "see")];
        error_block (lit "[TABLE]a | b[/TABLE]")].
Proof.
  intros content m.
  assert (He : exec content [] = Some (lit "see ", m, [])) by reflexivity.
  assert (Hlines : length (nonblank_lines (blockContent m)) < 2)
    by (vm_compute; lia).
  destruct (C4_short_table_is_error _ He eq_refl Hlines)
    as (Hnone & _ & _ & _ & _ & Hr).
  split; [exact Hnone|exact Hr].
Defined.

(** ** The [sql] prefix of a code block *)

Section CodeFacts.

Lemma trimStart_suffix (s : str) :
  exists run, s = run ++ trimStart s.
Proof.
  induction s as [|c s [run IH]]; simpl.
  - now exists [].
  - destruct (isWhiteSpace c).
    + exists (c :: run). simpl. now rewrite <- IH.
    + now exists [].
Qed.

(** The greedy white space of [/^sql\s+/i] before a continuation that takes
    any rest: the whole run of white space is consumed. *)
Lemma plus_greedy_whitespace (R : Type) (f : str -> R) (s taken : str) :
  plus_greedy isWhiteSpace s taken (fun _ rest => Some (f rest))
  = match s with
    | c :: s' => if isWhiteSpace c then Some (f (trimStart s')) else None
    | [] => None
    end.
Proof.
  revert taken. induction s as [|c s IH]; intros taken; simpl;
    [reflexivity|].
  destruct (isWhiteSpace c); [|reflexivity].
  rewrite IH. destruct s as [|c' s']; simpl; [reflexivity|].
  now destruct (isWhiteSpace c').
Qed.

Lemma skipn_consumed (x rest : str) :
  skipn (length (consumed (x ++ rest) rest)) (x ++ rest) = rest.
Proof.
  rewrite consumed_app, skipn_app, skipn_all, Nat.sub_diag. reflexivity.
Qed.

Lemma toLowerCase_sql_truthy (p : str) :
  toLowerCase p = lit "sql" -> truthy p = true.
Proof. destruct p; [discriminate|reflexivity]. Qed.

Lemma startsWith_sql_space (a b c : char) (rest : str) :
  ci_eq 115%N a = true -> ci_eq 113%N b = true -> ci_eq 108%N c = true ->
  startsWith (lit "sql ") (toLowerCase (a :: b :: c :: SPACE :: rest)) = true.
Proof.
  unfold ci_eq. intros Ha Hb Hc.
  change (startsWith (lit "sql ")
            (toLowerCase (a :: b :: c :: SPACE :: rest)))
    with ((lowerChar 115 =? lowerChar a) && ((lowerChar 113 =? lowerChar b)
          && ((lowerChar 108 =? lowerChar c) && true)))%N.
  now rewrite Ha, Hb, Hc.
Qed.

Lemma sql_prefix_space (a b c : char) (rest : str) :
  ci_eq 115%N a = true -> ci_eq 113%N b = true -> ci_eq 108%N c = true ->
  sql_prefix (a :: b :: c :: SPACE :: rest)
  = Some (consumed (a :: b :: c :: SPACE :: rest) (trimStart rest)).
Proof.
  intros Ha Hb Hc. unfold sql_prefix.
  change (lit "sql") with [115%N; 113%N; 108%N].
  cbn [literal_ci]. rewrite Ha, Hb, Hc.
  now rewrite plus_greedy_whitespace.
Qed.

(** The code block of a parameter that lower-cases to [sql] and of a body
    that, trimmed, begins with [sql] and a space. *)
Lemma code_block_sql (p body text : str) :
  toLowerCase p = lit "sql" ->
  strip_sql isSpace (trim body) = Some text ->
  code_block (Some p) body = (lit "language-sql", text).
Proof.
  intros Hp Hstrip. unfold code_block.
  rewrite (toLowerCase_sql_truthy _ Hp), Hp.
  destruct (trim body) as [|a [|b [|c [|w rest]]]]; try discriminate.
  unfold strip_sql in Hstrip.
  destruct (ci_eq 115%N a) eqn:Ha; [|discriminate].
  destruct (ci_eq 113%N b) eqn:Hb; [|discriminate].
  destruct (ci_eq 108%N c) eqn:Hc; [|discriminate].
  destruct (isSpace w) eqn:Hw; [|discriminate].
  injection Hstrip as <-.
  apply N.eqb_eq in Hw. subst w.
  change (JS.eqb (lit "sql") (lit "sql")) with true.
  rewrite startsWith_sql_space, sql_prefix_space by assumption.
  cbn [andb].
  destruct (trimStart_suffix rest) as [run Hrun].
  assert (Hsplit : a :: b :: c :: SPACE :: rest
                   = (a :: b :: c :: SPACE :: run) ++ trimStart rest)
    by (simpl; now rewrite <- Hrun).
  rewrite Hsplit at 1 2. rewrite skipn_consumed. reflexivity.
Qed.

End CodeFacts.

(** C5, as the code has it.  For a [CODE] block whose parameter lower-cases
    to [sql] and whose trimmed body begins with [sql], in any letter case,
    followed by a space (U+0020), the stored text is the body without this
    prefix and without the white space after it, and the class is
    [language-sql]; [[CODE=sql]sql SELECT 1[/CODE]] and
    [[CODE=sql]SELECT 1[/CODE]] both give the code block of class
    [language-sql] and text [SELECT 1]. *)
Theorem C5_sql_prefix_before_space :
  (forall (p body text : str),
      toLowerCase p = lit "sql" ->
      strip_sql isSpace (trim body) = Some text ->
      code_block (Some p) body = (lit "language-sql", text))
  /\ renderContent (lit "[CODE=sql]sql SELECT 1[/CODE]")
     = [code_node (lit "language-sql") (lit "SELECT 1")]
  /\ renderContent (lit "[CODE=sql]SELECT 1[/CODE]")
     = [code_node (lit "language-sql") (lit "SELECT 1")].
Proof.
  split; [exact code_block_sql|]. split; reflexivity.
Qed.

Lemma C5_sql_prefix_before_space_witness :
  code_block (Some (lit "SQL")) (lit "  Sql   SELECT 1 ")
  = (lit "language-sql", lit "SELECT 1").
Proof.
  apply (proj1 C5_sql_prefix_before_space); reflexivity.
Defined.

(** C5, as stated, fails: with a tab after [sql] the trimmed body begins
    with [sql] followed by white space, and the prefix is kept. *)
Lemma C5_counterexample :
  strip_sql isWhiteSpace (trim (lit "sql" ++ [TAB] ++ lit "SELECT 1"))
  = Some (lit "SELECT 1")
  /\ renderContent (lit "[CODE=sql]sql" ++ [TAB] ++ lit "SELECT 1[/CODE]")
     = [code_node (lit "language-sql")
          (lit "sql" ++ [TAB] ++ lit "SELECT 1")]
  /\ ~ (forall (p body text : str),
          toLowerCase p = lit "sql" ->
          strip_sql isWhiteSpace (trim body) = Some text ->
          code_block (Some p) body = (lit "language-sql", text)).
Proof.
  split; [reflexivity|]. split; [reflexivity|].
  intros H.
  specialize (H (lit "sql") (lit "sql" ++ [TAB] ++ lit "SELECT 1")
                (lit "SELECT 1") eq_refl eq_refl).
  discriminate H.
Qed.

(** ** The shuffle *)

Section ShuffleFacts.
Variable A : Type.

Lemma update_perm_head (a b : A) (l : list A) (j : nat) :
  nth_error l j = Some b -> Permutation (b :: update j a l) (a :: l).
Proof.
  revert j. induction l as [|x l IH]; intros [|j] Hj; simpl in *;
    try discriminate.
  - injection Hj as ->. apply perm_swap.
  - eapply perm_trans; [apply perm_swap|].
    eapply perm_trans; [apply perm_skip, IH, Hj|apply perm_swap].
Qed.

Lemma swap_elements_perm (ai aj : A) (l : list A) (i j : nat) :
  nth_error l i = Some ai -> nth_error l j = Some aj ->
  Permutation (update j ai (update i aj l)) l.
Proof.
  revert i j. induction l as [|x l IH]; intros [|i] [|j] Hi Hj; simpl in *;
    try discriminate.
  - injection Hi as ->. injection Hj as ->. apply Permutation_refl.
  - injection Hi as ->. now apply update_perm_head.
  - injection Hj as ->. now apply update_perm_head.
  - apply perm_skip. now apply IH.
Qed.

Lemma swap_perm (i j : nat) (l : list A) : Permutation (swap i j l) l.
Proof.
  unfold swap.
  destruct (nth_error l i) as [ai|] eqn:Hi; [|apply Permutation_refl].
  destruct (nth_error l j) as [aj|] eqn:Hj; [|apply Permutation_refl].
  now apply swap_elements_perm.
Qed.

Lemma shuffle_loop_perm (rnd : nat -> nat) (i : nat) (l : list A) :
  Permutation (shuffle_loop rnd i l) l.
Proof.
  revert l. induction i as [|i IH]; intros l; simpl.
  - apply Permutation_refl.
  - eapply perm_trans; [apply IH|apply swap_perm].
Qed.

Lemma shuffleArray_perm (rnd : nat -> nat) (l : list A) :
  Permutation (shuffleArray rnd l) l.
Proof. apply shuffle_loop_perm. Qed.

Lemma shuffleArray_length (rnd : nat -> nat) (l : list A) :
  length (shuffleArray rnd l) = length l.
Proof. apply Permutation_length, shuffleArray_perm. Qed.

Lemma skipn_nth_error (l : list A) (k : nat) (x : A) :
  nth_error l k = Some x -> skipn k l = x :: skipn (S k) l.
Proof.
  revert k. induction l as [|y l IH]; intros [|k] H; simpl in *;
    try discriminate.
  - now injection H as ->.
  - now apply IH.
Qed.

Lemma nth_error_in_range (l : list A) (k : nat) :
  k < length l -> exists x, nth_error l k = Some x.
Proof.
  intros H. destruct (nth_error l k) as [x|] eqn:Hx; [now exists x|].
  apply nth_error_None in Hx. lia.
Qed.

End ShuffleFacts.

(** ** The study flow *)

Section SessionFacts.

Lemma run_app (evs1 evs2 : list event) (st : State) :
  run (evs1 ++ evs2) st = run evs2 (run evs1 st).
Proof. apply fold_left_app. Qed.

Lemma shown_app (l1 l2 : list effect) : shown (l1 ++ l2) = shown l1 ++ shown l2.
Proof. apply flat_map_app. Qed.

Lemma posted_app (l1 l2 : list effect) :
  posted (l1 ++ l2) = posted l1 ++ posted l2.
Proof. apply flat_map_app. Qed.

(** The start of a session with due cards. *)
Lemma initialize_presenting (rnd : nat -> nat) (due : list Card)
  (st0 : State) :
  fresh st0 -> due <> [] ->
  let start := initializeStudySession rnd due st0 in
  presenting 0 start
  /\ cards start = shuffleArray rnd due
  /\ shown (log start) = firstn 1 (cards start)
  /\ posted (log start) = [].
Proof.
  intros (Hc & Hi & Hb & Hl & Hp & Hlog) Hdue.
  destruct due as [|d due]; [contradiction|].
  cbv zeta. unfold initializeStudySession, loadCard. cbn [cards].
  pose proof (shuffleArray_length rnd (d :: due)) as Hlen.
  destruct (shuffleArray rnd (d :: due)) as [|c cs] eqn:Hsh;
    [discriminate|].
  cbn. rewrite Hp, Hlog. unfold presenting. cbn.
  repeat split; try reflexivity; lia.
Qed.

(** One round of the scripted run on a card that is being presented. *)
Lemma round_step (k : nat) (st : State) (card : Card) (rating : Rating) :
  presenting k st ->
  nth_error (cards st) k = Some card ->
  let st' := run (reveal ++ rate rating Accepted) st in
  cards st' = cards st /\ currentCardIndex st' = S k
  /\ match nth_error (cards st) (S k) with
     | Some next =>
         presenting (S k) st'
         /\ log st' = log st ++ [Posted (id card) rating; Shown next]
     | None =>
         log st' = log st ++ [Posted (id card) rating]
         /\ terminal st' = true /\ completePage st' = true
         /\ pending st' = 0
     end.
Proof.
  intros (Hl & Hi & Hk & Hb & Hah & Had & Hrh & Hrd & Hp) Hcard.
  destruct st; cbn in Hl, Hi, Hk, Hb, Hah, Had, Hrh, Hrd, Hp, Hcard. subst.
  cbv zeta.
  unfold run, reveal, rate, dispatch, actionEnabled, ratingEnabled.
  cbn -[nth_error].
  unfold handleRatingClick. cbn -[nth_error]. rewrite Hcard.
  cbn -[nth_error]. unfold loadCard. cbn -[nth_error].
  destruct (nth_error cards0 (S k)) as [next|] eqn:Hnext;
    cbn -[nth_error].
  - assert (S k < length cards0)
      by (apply nth_error_Some; congruence).
    unfold presenting. cbn -[nth_error]. rewrite <- app_assoc.
    repeat split; try reflexivity; try lia.
  - apply nth_error_None in Hnext.
    unfold terminal, completePage. cbn -[nth_error].
    repeat split; try reflexivity.
    now apply Nat.leb_le.
Qed.

Lemma script_cons (rating : Rating) (ratings : list Rating) :
  script (rating :: ratings)
  = (reveal ++ rate rating Accepted) ++ script ratings.
Proof. reflexivity. Qed.

(** The scripted run from a card that is being presented. *)
Lemma run_script (ratings : list Rating) :
  forall (k : nat) (st : State),
    presenting k st ->
    k + length ratings <= length (cards st) ->
    let st' := run (script ratings) st in
    cards st' = cards st
    /\ currentCardIndex st' = k + length ratings
    /\ shown (log st')
       = shown (log st) ++ firstn (length ratings) (skipn (S k) (cards st))
    /\ posted (log st')
       = posted (log st) ++ combine (map id (skipn k (cards st))) ratings
    /\ (k + length ratings < length (cards st) ->
        presenting (k + length ratings) st')
    /\ (k + length ratings = length (cards st) ->
        terminal st' = true /\ completePage st' = true /\ pending st' = 0).
Proof.
  induction ratings as [|r rs IH]; intros k st Hpres Hlen; cbv zeta.
  - cbn [script flat_map run fold_left length firstn].
    rewrite Nat.add_0_r, combine_nil, !app_nil_r.
    pose proof Hpres as (Hl & Hi & Hk & Hrest).
    split; [reflexivity|]. split; [exact Hi|].
    split; [reflexivity|]. split; [reflexivity|].
    split; [intros _; exact Hpres|intros; lia].
  - rewrite script_cons, run_app.
    cbn [length] in *.
    assert (Hk : k < length (cards st)) by lia.
    destruct (nth_error_in_range _ Hk) as [card Hcard].
    destruct (round_step r Hpres Hcard) as (Hc1 & Hi1 & Hnext).
    set (st1 := run (reveal ++ rate r Accepted) st) in *. clearbody st1.
    rewrite (skipn_nth_error _ _ Hcard). cbn [map combine].
    replace (k + S (length rs)) with (S k + length rs) by lia.
    destruct (nth_error (cards st) (S k)) as [next|] eqn:Hn.
    + destruct Hnext as [Hpres1 Hlog1].
      assert (Hlen1 : S k + length rs <= length (cards st1))
        by (rewrite Hc1; lia).
      destruct (IH (S k) st1 Hpres1 Hlen1)
        as (Hc & Hi & Hs & Hp & Hgo & Hend).
      rewrite Hc1 in *.
      rewrite Hs, Hp, Hlog1, shown_app, posted_app.
      rewrite (skipn_nth_error _ _ Hn). cbn.
      rewrite <- !app_assoc. cbn.
      split; [exact Hc|]. split; [exact Hi|].
      split; [reflexivity|]. split; [reflexivity|].
      split; [exact Hgo|exact Hend].
    + destruct Hnext as (Hlog1 & Hterm & Hpage & Hpend).
      apply nth_error_None in Hn.
      assert (rs = []) by (destruct rs; [reflexivity|cbn in Hlen; lia]).
      subst rs. cbn [script flat_map run fold_left length].
      assert (Hsk : skipn (S k) (cards st) = []) by (apply skipn_all2; lia).
      rewrite Hsk, Hlog1, shown_app, posted_app. cbn.
      rewrite app_nil_r, Nat.add_0_r.
      split; [exact Hc1|]. split; [lia|].
      split; [reflexivity|]. split; [reflexivity|].
      split; [intros; lia|intros _; now repeat split].
Qed.

End SessionFacts.

(** C1. A session started with [N] due cards, [N > 0], and run by the script
    reveal, rate with success, once per card: after the [N] rounds the
    session is complete (the index is [N], past the last card, and the page
    shows the end of the session) and [N] reviews have been posted, one per
    card in the order shown; after [k < N] rounds the session is not
    complete, its index is [k] (each successful rating adds one) and the
    back is hidden again, until the reveal shows it; the cards shown are
    the shuffled cards, a permutation of the due cards. *)
Theorem C1_scripted_run (st0 : State) (rnd : nat -> nat) (due : list Card)
  (ratings : list Rating) :
  fresh st0 -> due <> [] -> length ratings = length due ->
  let start := initializeStudySession rnd due st0 in
  let final := run (script ratings) start in
  terminal final = true /\ completePage final = true
  /\ currentCardIndex final = length due
  /\ posted (log final) = combine (map id (cards start)) ratings
  /\ length (posted (log final)) = length due
  /\ (forall k, k < length due ->
        let sk := run (script (firstn k ratings)) start in
        terminal sk = false /\ currentCardIndex sk = k
        /\ isBackVisible sk = false
        /\ currentCardIndex (run reveal sk) = k
        /\ isBackVisible (run reveal sk) = true)
  /\ shown (log final) = cards start
  /\ Permutation (shown (log final)) due.
Proof.
  intros Hfresh Hdue Hlen start final.
  destruct (initialize_presenting rnd Hfresh Hdue)
    as (Hpres & Hcards & Hshown & Hposted).
  fold start in Hpres, Hcards, Hshown, Hposted.
  assert (Hn : length (cards start) = length due)
    by (rewrite Hcards; apply shuffleArray_length).
  assert (Hall : 0 + length ratings <= length (cards start)) by lia.
  destruct (run_script ratings Hpres Hall)
    as (Hc & Hi & Hs & Hp & _ & Hend).
  fold final in Hc, Hi, Hs, Hp, Hend.
  destruct Hend as (Hterm & Hpage & _); [lia|].
  assert (Hsh : shown (log final) = cards start).
  { rewrite Hs, Hshown.
    destruct (cards start) as [|c cs]; [cbn; now rewrite firstn_nil|].
    cbn in Hn |- *. rewrite firstn_all2 by lia. reflexivity. }
  split; [exact Hterm|]. split; [exact Hpage|].
  split; [lia|].
  split; [rewrite Hp, Hposted; reflexivity|].
  split; [rewrite Hp, Hposted; cbn;
          rewrite length_combine, length_map; lia|].
  split.
  - intros k Hk sk.
    assert (Hkl : length (firstn k ratings) = k)
      by (rewrite length_firstn; lia).
    assert (Hfit : 0 + length (firstn k ratings) <= length (cards start))
      by lia.
    destruct (run_script (firstn k ratings) Hpres Hfit)
      as (Hck & Hik & _ & _ & Hgo & _).
    fold sk in Hck, Hik, Hgo. rewrite Hkl in *.
    destruct Hgo as (Hl & _ & _ & Hb & Hah & Had & _); [lia|].
    unfold terminal. rewrite Hck, Hik.
    split; [apply Nat.leb_gt; lia|]. split; [reflexivity|].
    split; [exact Hb|].
    unfold run, reveal, dispatch, actionEnabled, handleActionClick.
    cbn [fold_left]. rewrite Hl, Had, Hb. cbn. now split.
  - split; [exact Hsh|].
    rewrite Hsh, Hcards. apply shuffleArray_perm.
Qed.

Lemma C1_scripted_run_witness :
  let start := initializeStudySession (fun _ => 0) [card1; card2] blankPage in
  let final := run (script [good; hard]) start in
  terminal final = true
  /\ shown (log final) = [card2; card1]
  /\ posted (log final) = [(2%N, good); (1%N, hard)].
Proof.
  intros start final.
  assert (Hfresh : fresh blankPage) by (repeat split).
  assert (Hdue : [card1; card2] <> []) by discriminate.
  destruct (@C1_scripted_run blankPage (fun _ => 0) [card1; card2]
              [good; hard] Hfresh Hdue eq_refl)
    as (Hterm & _ & _ & Hposted & _ & _ & Hshown & _).
  split; [exact Hterm|]. split; [exact Hshown|exact Hposted].
Defined.

(** ** What holds of every state of a session *)

Section InvariantFacts.

Lemma inv_initialize (rnd : nat -> nat) (due : list Card) (st0 : State) :
  fresh st0 -> session_inv (initializeStudySession rnd due st0).
Proof.
  intros Hfresh. destruct due as [|d due].
  - destruct Hfresh as (_ & _ & _ & Hl & Hp & _).
    unfold session_inv, initializeStudySession. cbn. now rewrite Hl.
  - assert (Hdue : d :: due <> []) by discriminate.
    destruct (initialize_presenting rnd Hfresh Hdue)
      as ((Hl & Hi & Hk & Hb & _ & _ & Hrh & Hrd & Hp) & _).
    unfold session_inv. rewrite Hl, Hi, Hp, Hrh.
    repeat split; try lia; try discriminate.
Qed.

Lemma inv_dispatch (ev : event) (st : State) :
  session_inv st -> session_inv (dispatch ev st).
Proof.
  unfold session_inv. intros Hinv.
  destruct (listening st) eqn:Hl.
  - destruct Hinv as (Hhid & Hle & Hpend & Hen).
    destruct ev as [|rating|o]; unfold dispatch.
    + destruct (actionEnabled st); [|rewrite Hl; tauto].
      unfold handleActionClick.
      destruct (isBackVisible st) eqn:Hb;
        [rewrite Hl; split; [intros; congruence|tauto]|].
      cbn. rewrite Hl.
      split; [discriminate|]. split; [exact Hle|].
      split; [exact Hpend|exact Hen].
    + destruct (ratingEnabled st) eqn:Hgate; [|rewrite Hl; tauto].
      unfold ratingEnabled in Hgate.
      apply andb_true_iff in Hgate as [_ Hrd].
      apply negb_true_iff in Hrd.
      unfold handleRatingClick.
      destruct (nth_error (cards st) (currentCardIndex st)) as [card|];
        [|rewrite Hl; tauto].
      cbn. rewrite Hl.
      assert (Hzero : pending st = 0).
      { destruct (pending st) as [|[|n]]; [reflexivity| |lia].
        destruct Hpend as [Hd _]; [reflexivity|congruence]. }
      specialize (Hen Hrd). rewrite Hzero.
      split; [exact Hhid|]. split; [lia|].
      split; [intros _; now split|discriminate].
    + destruct (Nat.ltb_spec 0 (pending st)) as [Hpos|Hzero];
        [|rewrite Hl; tauto].
      assert (Hone : pending st = 1) by lia.
      destruct (Hpend Hone) as [Hrd Hidx].
      destruct o as [|message]; unfold reviewSettled.
      * unfold loadCard. cbn [cards].
        destruct (nth_error (cards st) (S (currentCardIndex st)))
          as [next|] eqn:Hnext; cbn; rewrite ?Hl, ?Hone, ?Hrd; cbn.
        -- assert (S (currentCardIndex st) < length (cards st))
             by (apply nth_error_Some; congruence).
           repeat split; try lia; try discriminate.
        -- repeat split; try lia; try discriminate. exact Hhid.
      * cbn. rewrite Hl, Hone. cbn.
        repeat split; try lia; try discriminate; try assumption.
  - destruct ev as [|rating|o]; unfold dispatch, actionEnabled, ratingEnabled;
      rewrite ?Hl, ?Hinv; cbn; rewrite ?Hl; exact Hinv.
Qed.

Lemma inv_run (evs : list event) (st : State) :
  session_inv st -> session_inv (run evs st).
Proof.
  revert st. induction evs as [|ev evs IH]; intros st Hinv; cbn;
    [exact Hinv|].
  apply IH, inv_dispatch, Hinv.
Qed.

Lemma reachable_inv (st : State) : reachable st -> session_inv st.
Proof.
  intros (st0 & rnd & due & evs & Hfresh & ->).
  apply inv_run, inv_initialize, Hfresh.
Qed.

End InvariantFacts.

(** C7 does not hold of the script.  [handleRatingClick] does not look at
    [isBackVisible], and the listener of the rating buttons calls it for
    every click; [handleActionClick], next to it, returns at once when the
    back is already visible.  On the first card of a session of two cards,
    before any reveal ([isBackVisible] is false, and the rating buttons are
    hidden but not disabled), a click on a rating button changes the state:
    the buttons are disabled, the review of this card is posted, and when
    the review is accepted the index moves on and the next card is shown.
    The back of the first card was never revealed. *)
Theorem C7_rate_before_reveal_posts :
  let st := initializeStudySession (fun _ => 0) [card1; card2] blankPage in
  let st1 := dispatch (ClickRating good) st in
  let st2 := dispatch (Settle Accepted) st1 in
  reachable st
  /\ isBackVisible st = false /\ ratingButtonsHidden st = true
  /\ currentCardIndex st = 0
  /\ st1 = handleRatingClick good st
  /\ st1 <> st
  /\ ratingButtonsDisabled st1 = true
  /\ log st1 = log st ++ [Posted 2 good]
  /\ currentCardIndex st2 = 1
  /\ log st2 = log st ++ [Posted 2 good; Shown card1]
  /\ ~ (forall (s : State) (rating : Rating),
           isBackVisible s = false -> handleRatingClick rating s = s).
Proof.
  intros st st1 st2.
  split.
  { exists blankPage, (fun _ => 0), [card1; card2], [].
    split; [repeat split|reflexivity]. }
  do 4 (split; [reflexivity|]).
  split.
  { intros H. apply (f_equal pending) in H. discriminate H. }
  do 4 (split; [reflexivity|]).
  intros H. specialize (H st good eq_refl).
  apply (f_equal pending) in H. discriminate H.
Qed.

(** C8. A rating whose review fails, on a state where the rating buttons
    take a click for a current card with its back revealed: the cards and
    the index are as before, the back is still revealed, the rating buttons
    take a click again (they are enabled again, and shown as they were),
    exactly one review was posted and no other is awaited (no retry), the
    error is shown, and a further click on a rating button posts a review
    for the same card. *)
Theorem C8_failed_submission (st : State) (card : Card)
  (rating : Rating) (message : str) :
  ratingEnabled st = true -> isBackVisible st = true ->
  nth_error (cards st) (currentCardIndex st) = Some card ->
  let st' := run (rate rating (Rejected message)) st in
  cards st' = cards st
  /\ currentCardIndex st' = currentCardIndex st
  /\ isBackVisible st' = true
  /\ ratingEnabled st' = true
  /\ ratingButtonsDisabled st' = false
  /\ ratingButtonsHidden st' = ratingButtonsHidden st
  /\ log st' = log st ++ [Posted (id card) rating]
  /\ pending st' = pending st
  /\ errorMessage st' = Some (lit "Error submitting review: " ++ message)
  /\ errorMessageHidden st' = false
  /\ forall rating2,
       log (dispatch (ClickRating rating2) st')
       = log st' ++ [Posted (id card) rating2].
Proof.
  intros Hgate Hb Hcard st'.
  pose proof Hgate as Hgate'. unfold ratingEnabled in Hgate'.
  apply andb_true_iff in Hgate' as [Hl Hrd].
  assert (Hst' : st' = reviewSettled (Rejected message)
                         (handleRatingClick rating st)).
  { unfold st', run, rate. cbn [fold_left].
    unfold dispatch at 2. rewrite Hgate.
    unfold dispatch, handleRatingClick. rewrite Hcard. reflexivity. }
  clearbody st'. subst st'.
  unfold handleRatingClick. rewrite Hcard.
  unfold reviewSettled, dispatch, ratingEnabled. cbn.
  rewrite Hl, Hb. cbn.
  unfold handleRatingClick. cbn. rewrite Hcard. cbn.
  repeat split.
Qed.

Lemma C8_failed_submission_witness :
  let st := run reveal
              (initializeStudySession (fun _ => 0) [card1; card2] blankPage) in
  let st' := run (rate good (Rejected (lit "HTTP 500"))) st in
  currentCardIndex st' = 0 /\ isBackVisible st' = true
  /\ ratingEnabled st' = true
  /\ posted (log st') = [(2%N, good)].
Proof.
  intros st st'.
  destruct (@C8_failed_submission st card2 good (lit "HTTP 500")
              eq_refl eq_refl eq_refl)
    as (_ & Hi & Hb & Hen & _ & _ & Hlog & _).
  fold st' in Hi, Hb, Hen, Hlog.
  split; [exact Hi|]. split; [exact Hb|]. split; [exact Hen|].
  rewrite Hlog. reflexivity.
Defined.

(** C9. In every state of a session in which the rating buttons take a
    click, the index is less than the number of cards, so
    [handleRatingClick] finds the current card there and posts the review
    for it. *)
Theorem C9_rating_finds_card (st : State) :
  reachable st -> ratingEnabled st = true ->
  currentCardIndex st < length (cards st)
  /\ exists card,
       nth_error (cards st) (currentCardIndex st) = Some card
       /\ forall rating,
            log (dispatch (ClickRating rating) st)
            = log st ++ [Posted (id card) rating].
Proof.
  intros Hreach Hgate. apply reachable_inv in Hreach.
  pose proof Hgate as Hgate'. unfold ratingEnabled in Hgate'.
  apply andb_true_iff in Hgate' as [Hl Hrd].
  apply negb_true_iff in Hrd.
  unfold session_inv in Hreach. rewrite Hl in Hreach.
  destruct Hreach as (_ & _ & _ & Hen). specialize (Hen Hrd).
  split; [exact Hen|].
  destruct (nth_error_in_range _ Hen) as [card Hcard].
  exists card. split; [exact Hcard|].
  intros rating. unfold dispatch. rewrite Hgate.
  unfold handleRatingClick. rewrite Hcard. reflexivity.
Qed.

Lemma C9_rating_finds_card_witness :
  let st := run (script [good] ++ reveal)
              (initializeStudySession (fun _ => 0) [card1; card2] blankPage) in
  currentCardIndex st = 1 /\ currentCardIndex st < length (cards st).
Proof.
  intros st.
  assert (Hreach : reachable st).
  { exists blankPage, (fun _ => 0), [card1; card2], (script [good] ++ reveal).
    split; [repeat split|reflexivity]. }
  split; [reflexivity|].
  exact (proj1 (C9_rating_finds_card Hreach eq_refl)).
Defined.

(* ================================================================== *)
(** * Part III. Further properties of the script *)
(* ================================================================== *)

(** ** Trimming and splitting *)

Section TrimFacts.

Lemma trimStart_snoc (l : str) (c : char) :
  trimStart (l ++ [c])
  = match trimStart l with
    | [] => if isWhiteSpace c then [] else [c]
    | t => t ++ [c]
    end.
Proof.
  induction l as [|x l IH]; cbn [app trimStart]; [reflexivity|].
  destruct (isWhiteSpace x); [exact IH|reflexivity].
Qed.

Lemma trimEnd_cons (c : char) (s : str) :
  trimEnd (c :: s)
  = match trimEnd s with
    | [] => if isWhiteSpace c then [] else [c]
    | t => c :: t
    end.
Proof.
  unfold trimEnd. cbn [rev]. rewrite trimStart_snoc.
  destruct (trimStart (rev s)) as [|x t] eqn:Ht.
  - cbn [rev]. now destruct (isWhiteSpace c).
  - rewrite rev_app_distr. cbn [rev app].
    destruct (rev t ++ [x]) as [|y u] eqn:Hu; [|reflexivity].
    now apply app_eq_nil in Hu as [_ Hu].
Qed.

Lemma trimStart_idem (s : str) : trimStart (trimStart s) = trimStart s.
Proof.
  induction s as [|c s IH]; [reflexivity|]. cbn [trimStart].
  destruct (isWhiteSpace c) eqn:Hc; [exact IH|].
  cbn [trimStart]. now rewrite Hc.
Qed.

Lemma trimEnd_idem (s : str) : trimEnd (trimEnd s) = trimEnd s.
Proof. unfold trimEnd. now rewrite rev_involutive, trimStart_idem. Qed.

(** The start of a text is not touched by trimming its end. *)
Lemma trimStart_trimEnd (s : str) :
  trimStart s = s -> trimStart (trimEnd s) = trimEnd s.
Proof.
  destruct s as [|c s]; [reflexivity|].
  cbn [trimStart]. destruct (isWhiteSpace c) eqn:Hc.
  - intros H. exfalso.
    assert (Hlen : length (trimStart s) <= length s).
    { clear. induction s as [|x s IH]; cbn [trimStart]; [lia|].
      destruct (isWhiteSpace x); cbn [length]; lia. }
    rewrite H in Hlen. cbn [length] in Hlen. lia.
  - intros _. rewrite trimEnd_cons.
    destruct (trimEnd s); rewrite ?Hc; cbn [trimStart]; now rewrite Hc.
Qed.

Lemma trim_idem (s : str) : trim (trim s) = trim s.
Proof.
  unfold trim.
  rewrite (trimStart_trimEnd (trimStart_idem s)).
  apply trimEnd_idem.
Qed.

Lemma trimStart_In (c : char) (s : str) : In c (trimStart s) -> In c s.
Proof.
  induction s as [|x s IH]; cbn [trimStart]; [tauto|].
  destruct (isWhiteSpace x); [intros H; right; now apply IH|tauto].
Qed.

Lemma trim_In (c : char) (s : str) : In c (trim s) -> In c s.
Proof.
  unfold trim, trimEnd. intros H.
  apply in_rev, trimStart_In in H. apply in_rev in H.
  now apply trimStart_In.
Qed.

(** No piece of a split holds the separator. *)
Lemma split_no_sep (sep : char) (s p : str) :
  In p (split sep s) -> ~ In sep p.
Proof.
  revert p. induction s as [|c s IH]; intros p Hp.
  - cbn in Hp. destruct Hp as [<-|[]]. tauto.
  - rewrite split_cons in Hp.
    destruct (N.eqb_spec c sep) as [->|Hne].
    + destruct Hp as [<-|Hp]; [tauto|now apply IH].
    + destruct (split sep s) as [|q qs] eqn:Hs;
        [now apply split_not_nil in Hs|].
      destruct Hp as [<-|Hp].
      * intros [Hc|Hq]; [congruence|].
        revert Hq. apply IH. now left.
      * apply IH. now right.
Qed.

(** A piece of a split holds only code units of the text. *)
Lemma split_In (sep c : char) (s p : str) :
  In p (split sep s) -> In c p -> In c s.
Proof.
  revert p. induction s as [|x s IH]; intros p Hp Hc.
  - cbn in Hp. destruct Hp as [<-|[]]. exact Hc.
  - rewrite split_cons in Hp.
    destruct (x =? sep)%N.
    + destruct Hp as [<-|Hp]; [destruct Hc|]. right. now apply (IH p).
    + destruct (split sep s) as [|q qs] eqn:Hs;
        [now apply split_not_nil in Hs|].
      destruct Hp as [<-|Hp].
      * destruct Hc as [->|Hc]; [now left|].
        right. apply (IH q); [now left|exact Hc].
      * right. apply (IH p); [now right|exact Hc].
Qed.

Lemma cells_clean (line c : str) :
  ~ In LF line -> In c (cells line) -> clean_cell c.
Proof.
  unfold cells. intros Hlf Hc.
  apply in_map_iff in Hc as (p & <- & Hp).
  split; [apply trim_idem|]. split.
  - intros H. apply trim_In in H. now apply (split_no_sep _ _ _ Hp).
  - intros H. apply trim_In in H. apply Hlf. now apply (split_In _ _ _ _ Hp).
Qed.

Lemma table_lines_no_LF (body line : str) :
  In line (table_lines body) -> ~ In LF line.
Proof.
  unfold table_lines. intros H. apply filter_In in H as [H _].
  now apply (split_no_sep _ _ _ H).
Qed.

Lemma skipn_In (A : Type) (n : nat) (l : list A) (x : A) :
  In x (skipn n l) -> In x l.
Proof.
  revert l. induction n as [|n IH]; intros [|y l] H; cbn in *; try tauto.
  right. now apply IH.
Qed.

End TrimFacts.

(** X1. Every cell of a parsed table, header or data, padding included, is
    trimmed (trimming it again changes nothing) and holds neither [|] nor
    a line feed. *)
Theorem parsed_cells_clean (body : str) (t : TableData) :
  parseTableData body = Some t ->
  Forall clean_cell (headers t) /\ Forall (Forall clean_cell) (rows t).
Proof.
  intros Hparse.
  destruct (parseTableData_some _ Hparse) as (Hlen & Hhs & Hrows).
  assert (Hline : forall line c,
             In line (table_lines body) -> In c (cells line) -> clean_cell c).
  { intros line c Hl. apply cells_clean. now apply table_lines_no_LF in Hl. }
  split.
  - rewrite Hhs. apply Forall_forall. intros c.
    apply Hline, nth_In. lia.
  - rewrite Hrows. apply Forall_forall. intros row Hrow.
    apply in_map_iff in Hrow as (line & <- & Hl).
    apply Forall_forall. intros c Hc. unfold padded in Hc.
    apply in_app_or in Hc as [Hc|Hc].
    + apply (Hline line); [|exact Hc]. now apply skipn_In in Hl.
    + apply repeat_spec in Hc. subst c. repeat split; intros [].
Qed.

Lemma parsed_cells_clean_witness :
  Forall clean_cell [lit "a"; lit "b"; lit "c"]
  /\ Forall (Forall clean_cell) [[lit "1"; lit "2"; []]].
Proof.
  exact (@parsed_cells_clean example_table_body
           (mkTable [lit "a"; lit "b"; lit "c"] [[lit "1"; lit "2"; []]])
           eq_refl).
Defined.

(** X2. The table parser fails exactly on the bodies with fewer than two
    non-blank lines; on every other body it gives one row for each
    non-blank line after the second. *)
Theorem parseTableData_succeeds_iff (body : str) :
  (parseTableData body = None <-> length (nonblank_lines body) < 2)
  /\ (2 <= length (nonblank_lines body) ->
      exists t, parseTableData body = Some t
                /\ length (rows t) + 2 = length (nonblank_lines body)).
Proof.
  rewrite <- table_lines_count. split; [apply parseTableData_none|].
  intros Hlen.
  destruct (parseTableData body) as [t|] eqn:Hparse.
  - exists t. split; [reflexivity|].
    destruct (parseTableData_some _ Hparse) as (_ & _ & Hrows).
    rewrite Hrows, length_map, length_skipn. lia.
  - apply parseTableData_none in Hparse. lia.
Qed.

Lemma parseTableData_succeeds_iff_witness :
  exists t, parseTableData example_table_body = Some t
            /\ length (rows t) + 2 = length (nonblank_lines example_table_body).
Proof.
  apply (proj2 (parseTableData_succeeds_iff example_table_body)).
  vm_compute. lia.
Defined.

(** ** Content without blocks, paragraphs *)

Section TextFacts.

Lemma block_at_not_bracket (c : char) (s : str) :
  c <> LBRACKET -> block_at (c :: s) = None.
Proof.
  intros Hc. unfold block_at. cbn [lit list_ascii_of_string map literal].
  change (N_of_ascii "[") with LBRACKET.
  destruct (N.eqb_spec LBRACKET c); [congruence|reflexivity].
Qed.

Lemma exec_no_bracket (s skipped : str) :
  ~ In LBRACKET s -> exec s skipped = None.
Proof.
  revert skipped. induction s as [|c s IH]; intros skipped Hno;
    [reflexivity|].
  rewrite exec_cons, block_at_not_bracket.
  - apply IH. intros H. apply Hno. now right.
  - intros ->. apply Hno. now left.
Qed.

Lemma trimStart_all_ws (s : str) :
  forallb isWhiteSpace s = true -> trimStart s = [].
Proof.
  induction s as [|c s IH]; [reflexivity|]. cbn [forallb trimStart].
  intros H. apply andb_true_iff in H as [-> H]. now apply IH.
Qed.

Lemma span_at_not_backtick (c : char) (s : str) :
  c <> BACKTICK -> span_at (c :: s) = None.
Proof.
  intros Hc. unfold span_at. cbn [literal].
  destruct (N.eqb_spec BACKTICK c); [congruence|reflexivity].
Qed.

(** Before a first backtick nothing is split off. *)
Lemma split_spans_skip (x : str) :
  forall (n : nat) (s piece : str),
    ~ In BACKTICK x -> length (x ++ s) <= n ->
    split_spans n (x ++ s) piece
    = split_spans (n - length x) s (piece ++ x).
Proof.
  induction x as [|c x IH]; intros n s piece Hno Hlen.
  - cbn [app length]. now rewrite Nat.sub_0_r, app_nil_r.
  - destruct n as [|n]; [cbn in Hlen; lia|].
    cbn [app split_spans length Nat.sub].
    rewrite span_at_not_backtick by (intros ->; apply Hno; now left).
    rewrite IH.
    + now rewrite <- app_assoc.
    + intros H. apply Hno. now right.
    + cbn in Hlen. lia.
Qed.

Lemma split_spans_plain (n : nat) (s piece : str) :
  ~ In BACKTICK s -> length s <= n -> split_spans n s piece = [piece ++ s].
Proof.
  intros Hno Hlen.
  pose proof (@split_spans_skip s n [] piece Hno) as H.
  rewrite app_nil_r in H. rewrite H by exact Hlen.
  destruct (n - length s); cbn [split_spans]; now rewrite ?app_nil_r.
Qed.

Lemma render_part_plain (x : str) :
  ~ In BACKTICK x -> render_part x = plain_part x.
Proof.
  intros Hno. unfold render_part, plain_part.
  destruct x as [|c x]; [reflexivity|].
  cbn [startsWith].
  destruct (N.eqb_spec BACKTICK c) as [Heq|_]; [|cbn [andb]; reflexivity].
  exfalso. apply Hno. now left.
Qed.

Lemma paragraph_text_lines (l : list str) :
  paragraph_text (text_lines l) = join LF l.
Proof.
  unfold paragraph_text.
  induction l as [|p [|q ps] IH]; [reflexivity|cbn; apply app_nil_r|].
  change (text_lines (p :: q :: ps))
    with (TextNode p :: Br :: text_lines (q :: ps)).
  cbn [flat_map inline_text]. rewrite IH. reflexivity.
Qed.

Lemma join_cons (sep : char) (p : str) (l : list str) :
  l <> [] -> join sep (p :: l) = p ++ sep :: join sep l.
Proof. destruct l; [contradiction|reflexivity]. Qed.

Lemma join_head (sep c : char) (p : str) (ps : list str) :
  join sep ((c :: p) :: ps) = c :: join sep (p :: ps).
Proof. destruct ps; reflexivity. Qed.

(** Joining the pieces of a split gives the text back. *)
Lemma join_split (sep : char) (s : str) : join sep (split sep s) = s.
Proof.
  induction s as [|c s IH]; [reflexivity|].
  rewrite split_cons.
  destruct (N.eqb_spec c sep) as [->|Hne].
  - rewrite join_cons by apply split_not_nil. now rewrite IH.
  - destruct (split sep s) as [|p ps] eqn:Hs;
      [now apply split_not_nil in Hs|].
    rewrite join_head. now rewrite IH.
Qed.

End TextFacts.

(** X3. A content without any [[] holds no block: it is rendered as the
    paragraph of its trimmed text, one node at most, and as nothing at all
    when it is empty or white space only. *)
Theorem content_without_bracket (content : str) :
  ~ In LBRACKET content ->
  renderContent content = renderText (trim content)
  /\ blocks content = []
  /\ length (renderContent content) <= 1
  /\ (forallb isWhiteSpace content = true -> renderContent content = []).
Proof.
  intros Hno.
  pose proof (exec_no_bracket content [] Hno) as He.
  assert (Hr : renderContent content = renderText (trim content))
    by (rewrite renderContent_unfold, He; reflexivity).
  split; [exact Hr|]. split.
  - unfold blocks. rewrite matchAll_unfold, He. reflexivity.
  - rewrite Hr, renderText_length. split.
    + destruct (truthy (trim content)); lia.
    + intros Hws. unfold trim. now rewrite (trimStart_all_ws _ Hws).
Qed.

Lemma content_without_bracket_witness :
  renderContent (lit "  plain text ") = [P [TextNode (lit "plain text")]]
  /\ renderContent [SPACE; LF; TAB] = [].
Proof.
  split.
  - refine (proj1 (@content_without_bracket (lit "  plain text ") _)).
    vm_compute. intuition discriminate.
  - refine (proj2 (proj2 (proj2 (@content_without_bracket [SPACE; LF; TAB] _)))
              eq_refl).
    vm_compute. intuition discriminate.
Defined.

(** X4. A text without backtick, not empty, becomes one paragraph: a text
    node for each of its lines and a [br] between two lines; reading the
    children back, with a line feed for each [br], gives the text. *)
Theorem plain_text_paragraph (text : str) :
  text <> [] -> ~ In BACKTICK text ->
  renderText text = [P (text_lines (split LF text))]
  /\ paragraph_text (text_lines (split LF text)) = text.
Proof.
  intros Hne Hno. split.
  - unfold renderText.
    destruct text as [|c text]; [contradiction|]. cbn [truthy].
    rewrite (@split_spans_plain _ (c :: text) [] Hno (le_n _)). cbn [app flat_map].
    rewrite app_nil_r, render_part_plain by exact Hno. reflexivity.
  - rewrite paragraph_text_lines. apply join_split.
Qed.

Lemma plain_text_paragraph_witness :
  renderText (lit "one" ++ [LF] ++ lit "two")
  = [P [TextNode (lit "one"); Br; TextNode (lit "two")]].
Proof.
  refine (proj1 (@plain_text_paragraph (lit "one" ++ [LF] ++ lit "two") _ _)).
  - discriminate.
  - vm_compute. intuition discriminate.
Defined.

(** ** Inline code *)

Section SpanFacts.

(** A backtick, a text without backtick that is not empty, a backtick: a
    span. *)
Lemma span_at_complete (inner rest : str) :
  inner <> [] -> ~ In BACKTICK inner ->
  span_at (BACKTICK :: inner ++ BACKTICK :: rest)
  = Some (BACKTICK :: inner ++ [BACKTICK], rest).
Proof.
  intros Hne Hno. unfold span_at.
  set (s := BACKTICK :: inner ++ BACKTICK :: rest).
  assert (Hs : s = (BACKTICK :: inner ++ [BACKTICK]) ++ rest)
    by (unfold s; cbn; now rewrite <- app_assoc).
  change s with ([BACKTICK] ++ inner ++ BACKTICK :: rest) at 1.
  rewrite literal_app.
  apply plus_greedy_longest.
  - exact Hne.
  - apply forallb_forall. intros c Hc. unfold notBacktick.
    destruct (N.eqb_spec c BACKTICK) as [->|_]; [contradiction|reflexivity].
  - reflexivity.
  - change (BACKTICK :: rest) with ([BACKTICK] ++ rest).
    rewrite literal_app, (@consumed_eq _ _ _ Hs). reflexivity.
Qed.

Lemma span_at_inv (s span rest : str) :
  span_at s = Some (span, rest) ->
  s = span ++ rest /\ span <> [].
Proof.
  unfold span_at. intros H.
  apply literal_inv in H as (s1 & -> & H).
  apply plus_greedy_inv in H as (run & s2 & _ & _ & -> & H).
  apply literal_inv in H as (rest' & -> & H).
  injection H as <- <-.
  assert (Hs : BACKTICK :: run ++ BACKTICK :: rest'
               = (BACKTICK :: run ++ [BACKTICK]) ++ rest')
    by (cbn; now rewrite <- app_assoc).
  rewrite (@consumed_eq _ _ _ Hs). split; [exact Hs|discriminate].
Qed.

(** The pieces and spans of a text, put end to end, are the text. *)
Lemma split_spans_concat (n : nat) (s piece : str) :
  concat (split_spans n s piece) = piece ++ s.
Proof.
  revert s piece. induction n as [|n IH]; intros s piece; cbn [split_spans].
  - cbn. apply app_nil_r.
  - destruct s as [|c s]; [cbn; reflexivity|].
    destruct (span_at (c :: s)) as [[span rest]|] eqn:Hspan.
    + apply span_at_inv in Hspan as [Hs _].
      cbn [concat]. rewrite IH, Hs. reflexivity.
    + rewrite IH. now rewrite <- app_assoc.
Qed.

Lemma render_part_nonempty (part : str) :
  part <> [] -> render_part part <> [].
Proof.
  intros Hne. unfold render_part.
  destruct (startsWith [BACKTICK] part && endsWith [BACKTICK] part);
    [discriminate|].
  destruct part as [|c part]; [contradiction|]. cbn [truthy].
  destruct (split LF (c :: part)) as [|l [|l' ls]] eqn:Hs;
    [now apply split_not_nil in Hs|discriminate|discriminate].
Qed.

Lemma renderText_nonempty (text : str) :
  Forall nonempty_paragraph (renderText text).
Proof.
  unfold renderText. destruct (truthy text) eqn:Ht; [|constructor].
  constructor; [|constructor]. cbn [nonempty_paragraph].
  pose proof (split_spans_concat (length text) text []) as Hcat.
  cbn [app] in Hcat.
  induction (split_spans (length text) text []) as [|part parts IH].
  - cbn in Hcat. subst text. discriminate.
  - cbn [flat_map]. destruct part as [|c part].
    + cbn [concat app] in Hcat. cbn [render_part startsWith app].
      cbn. apply IH, Hcat.
    + intros H. apply app_eq_nil in H as [H _].
      revert H. apply render_part_nonempty. discriminate.
Qed.

Lemma render_block_not_paragraph (m : Match) :
  nonempty_paragraph (render_block m).
Proof.
  unfold render_block.
  destruct (JS.eqb (tagName m) (lit "TABLE")).
  - destruct (parseTableData (blockContent m)); exact I.
  - destruct (JS.eqb (tagName m) (lit "CODE")); [|exact I].
    destruct (code_block (tagParam m) (blockContent m)). exact I.
Qed.

End SpanFacts.

Lemma render_part_span (inner : str) :
  render_part (BACKTICK :: inner ++ [BACKTICK]) = [code_span inner].
Proof.
  unfold render_part, code_span.
  assert (Hstart : startsWith [BACKTICK] (BACKTICK :: inner ++ [BACKTICK])
                   = true) by reflexivity.
  assert (Hend : endsWith [BACKTICK] (BACKTICK :: inner ++ [BACKTICK])
                 = true).
  { unfold endsWith. cbn [rev]. rewrite rev_app_distr. reflexivity. }
  rewrite Hstart, Hend. cbn [andb]. f_equal. f_equal.
  unfold substring. cbn [length]. rewrite length_app. cbn [length].
  replace (S (length inner + 1) - 1) with (S (length inner)) by lia.
  rewrite (Nat.min_l 1) by lia.
  rewrite (Nat.min_l (S (length inner))) by lia.
  rewrite (Nat.min_l 1) by lia.
  rewrite (Nat.max_r 1) by lia.
  cbn [skipn Nat.sub]. rewrite Nat.sub_0_r, firstn_app, firstn_all.
  rewrite Nat.sub_diag. cbn [firstn]. apply app_nil_r.
Qed.

(** X5. A text made of a part without backtick, an inline code between
    two backticks (not empty, without backtick) and another part without
    backtick becomes one paragraph: the children of the first part, the
    [code] element holding the inner text without its backticks, the
    children of the last part. *)
Theorem inline_code_span (x inner y : str) :
  ~ In BACKTICK x -> inner <> [] -> ~ In BACKTICK inner ->
  ~ In BACKTICK y ->
  renderText (x ++ BACKTICK :: inner ++ BACKTICK :: y)
  = [P (plain_part x ++ code_span inner :: plain_part y)].
Proof.
  intros Hx Hne Hinner Hy. unfold renderText.
  assert (Ht : truthy (x ++ BACKTICK :: inner ++ BACKTICK :: y) = true)
    by (destruct x; reflexivity).
  rewrite Ht. f_equal. f_equal.
  rewrite (@split_spans_skip x _ _ [] Hx (le_n _)).
  rewrite length_app.
  replace (length x + length (BACKTICK :: inner ++ BACKTICK :: y) - length x)
    with (S (length (inner ++ BACKTICK :: y))) by (cbn [length]; lia).
  cbn [split_spans app].
  rewrite (span_at_complete y Hne Hinner).
  rewrite split_spans_plain
    by (try exact Hy; rewrite length_app; cbn [length]; lia).
  cbn [flat_map app]. rewrite app_nil_r.
  rewrite render_part_span, (@render_part_plain x Hx), (@render_part_plain y Hy).
  reflexivity.
Qed.

Lemma inline_code_span_witness :
  renderText (lit "key `id` of t")
  = [P [TextNode (lit "key "); code_span (lit "id");
        TextNode (lit " of t")]].
Proof.
  refine (@inline_code_span (lit "key ") (lit "id") (lit " of t") _ _ _ _).
  - vm_compute. intuition discriminate.
  - discriminate.
  - vm_compute. intuition discriminate.
  - vm_compute. intuition discriminate.
Defined.

(** X6. [renderContent] never gives an empty paragraph: every paragraph
    among its nodes has a child. *)
Theorem no_empty_paragraph (content : str) :
  Forall nonempty_paragraph (renderContent content).
Proof.
  unfold renderContent. generalize (length content) as n.
  intros n. revert content. induction n as [|n IH]; intros content;
    cbn [render_loop].
  - apply renderText_nonempty.
  - destruct (exec content []) as [[[pre m] rest]|].
    + apply Forall_app. split; [apply renderText_nonempty|].
      constructor; [apply render_block_not_paragraph|apply IH].
    + apply renderText_nonempty.
Qed.

(** ** Code blocks and unknown tags *)

Section CodeTextFacts.

Lemma trimStart_length (s : str) : length (trimStart s) <= length s.
Proof.
  induction s as [|c s IH]; cbn [trimStart]; [lia|].
  destruct (isWhiteSpace c); cbn [length]; lia.
Qed.

Lemma trimStart_prefix_fixed (a b : str) :
  trimStart (a ++ b) = a ++ b -> trimStart a = a.
Proof.
  destruct a as [|c a]; [reflexivity|]. cbn [app trimStart].
  destruct (isWhiteSpace c); [|reflexivity].
  intros H. pose proof (trimStart_length (a ++ b)) as Hlen.
  rewrite H in Hlen. cbn [length] in Hlen. lia.
Qed.

(** A text that does not end with white space has no suffix that does. *)
Lemma trimEnd_suffix_fixed (p q : str) :
  trimEnd (p ++ q) = p ++ q -> trimEnd q = q.
Proof.
  unfold trimEnd. intros H.
  apply (f_equal (@rev char)) in H.
  rewrite rev_involutive, rev_app_distr in H.
  apply trimStart_prefix_fixed in H. now rewrite H, rev_involutive.
Qed.

Lemma literal_ci_inv (R : Type) (p s : str) (k : str -> option R) (r : R) :
  literal_ci p s k = Some r ->
  exists pre s', s = pre ++ s' /\ k s' = Some r.
Proof.
  revert s. induction p as [|a p IH]; intros s H; cbn [literal_ci] in H.
  - now exists [], s.
  - destruct s as [|c s]; [discriminate|].
    destruct (ci_eq a c); [|discriminate].
    destruct (IH _ H) as (pre & s' & -> & Hk). now exists (c :: pre), s'.
Qed.

(** What [/^sql\s+/i] matches is a prefix of the text, and what follows it
    does not begin with white space. *)
Lemma sql_prefix_inv (s m0 : str) :
  sql_prefix s = Some m0 ->
  exists rest, s = m0 ++ rest /\ trimStart rest = rest.
Proof.
  unfold sql_prefix. intros H.
  apply literal_ci_inv in H as (pre & s' & Hs & H).
  rewrite plus_greedy_whitespace in H.
  destruct s' as [|c s'']; [discriminate|].
  destruct (isWhiteSpace c); [|discriminate].
  injection H as <-.
  destruct (trimStart_suffix s'') as [run Hrun].
  assert (Hsplit : s = (pre ++ c :: run) ++ trimStart s'').
  { rewrite Hs, <- app_assoc. cbn [app]. now rewrite <- Hrun. }
  exists (trimStart s''). rewrite (@consumed_eq _ _ _ Hsplit).
  split; [exact Hsplit|apply trimStart_idem].
Qed.

Lemma trim_fixed_trimEnd (s : str) : trimEnd (trim s) = trim s.
Proof. unfold trim. apply trimEnd_idem. Qed.

Lemma lowerChar_lang (c : char) :
  isParamChar c = true -> isLangChar (lowerChar c) = true.
Proof.
  unfold isLangChar, lowerChar, isUpper. intros H.
  destruct ((65 <=? c) && (c <=? 90))%N eqn:Hu.
  - apply andb_true_iff in Hu as [H1 H2]. apply N.leb_le in H1, H2.
    unfold isParamChar.
    replace (97 <=? c + 32)%N with true by (symmetry; apply N.leb_le; lia).
    replace (c + 32 <=? 122)%N with true by (symmetry; apply N.leb_le; lia).
    replace (c + 32 <=? 90)%N with false by (symmetry; apply N.leb_gt; lia).
    cbn. now rewrite andb_false_r.
  - now rewrite H, Hu.
Qed.

Lemma lowerChar_space (w : char) : lowerChar w = SPACE -> w = SPACE.
Proof.
  unfold lowerChar, SPACE.
  destruct ((65 <=? w) && (w <=? 90))%N eqn:Hu; [|easy].
  apply andb_true_iff in Hu as [H1 _]. apply N.leb_le in H1. lia.
Qed.

(** The test of line 168, on the text in lower case, holds only of a text
    that begins with [sql], in any letter case, and a space. *)
Lemma startsWith_sql_strip (s : str) :
  startsWith (lit "sql ") (toLowerCase s) = true ->
  exists text, strip_sql isSpace s = Some text.
Proof.
  destruct s as [|a [|b [|c [|w rest]]]];
    try (intros H; cbn in H; rewrite ?andb_false_r in H; discriminate H).
  change (startsWith (lit "sql ") (toLowerCase (a :: b :: c :: w :: rest)))
    with ((lowerChar 115 =? lowerChar a) && ((lowerChar 113 =? lowerChar b)
          && ((lowerChar 108 =? lowerChar c)
              && ((SPACE =? lowerChar w) && true))))%N.
  intros H.
  apply andb_true_iff in H as [Ha H]. apply andb_true_iff in H as [Hb H].
  apply andb_true_iff in H as [Hc H]. apply andb_true_iff in H as [Hw _].
  apply N.eqb_eq in Hw. symmetry in Hw. apply lowerChar_space in Hw.
  subst w. exists (trimStart rest).
  unfold strip_sql, ci_eq. now rewrite Ha, Hb, Hc.
Qed.

(** The text stored for a code block, from the parameter and the body. *)
Lemma code_block_text (param : option str) (body : str) :
  snd (code_block param body) = code_text_of param body.
Proof.
  unfold code_text_of. destruct param as [p|]; [|reflexivity].
  destruct (JS.eqb (toLowerCase p) (lit "sql")) eqn:Hp.
  - apply eqb_eq in Hp.
    destruct (strip_sql isSpace (trim body)) as [text|] eqn:Hs.
    + now rewrite (@code_block_sql p body text Hp Hs).
    + unfold code_block.
      destruct (truthy p); [|reflexivity].
      destruct (startsWith (lit "sql ") (toLowerCase (trim body))) eqn:Hw.
      * apply startsWith_sql_strip in Hw as [text Hw]. congruence.
      * now rewrite andb_false_r.
  - unfold code_block. destruct (truthy p); [|reflexivity].
    now rewrite Hp.
Qed.

End CodeTextFacts.

(** X7. The text stored for a code block is the trimmed body, except for
    a parameter that is [sql] in any letter case and a trimmed body that
    begins with [sql], in any letter case, and a space: then it is what
    follows this prefix and the white space after it.  This text never
    begins or ends with white space (trimming it changes nothing) and is
    the end of the trimmed body. *)
Theorem code_text_trimmed (param : option str) (body : str) :
  snd (code_block param body) = code_text_of param body
  /\ trim (snd (code_block param body)) = snd (code_block param body)
  /\ exists prefix, trim body = prefix ++ snd (code_block param body).
Proof.
  split; [apply code_block_text|].
  assert (Hkeep : trim (trim body) = trim body
                  /\ exists prefix, trim body = prefix ++ trim body)
    by (split; [apply trim_idem|now exists []]).
  unfold code_block.
  destruct param as [p|]; [|exact Hkeep].
  destruct (truthy p); [|exact Hkeep].
  destruct (JS.eqb (toLowerCase p) (lit "sql")
            && startsWith (lit "sql ") (toLowerCase (trim body)));
    [|exact Hkeep].
  destruct (sql_prefix (trim body)) as [m0|] eqn:Hm0; [|exact Hkeep].
  apply sql_prefix_inv in Hm0 as (rest & Hs & Hrest).
  cbn [snd].
  assert (Hskip : skipn (length m0) (trim body) = rest)
    by (rewrite Hs, skipn_app, skipn_all, Nat.sub_diag; reflexivity).
  rewrite Hskip. split; [|now exists m0].
  unfold trim. rewrite Hrest.
  apply (@trimEnd_suffix_fixed m0 rest). rewrite <- Hs.
  apply trim_fixed_trimEnd.
Qed.

(** X8. A block whose tag is neither [TABLE] nor [CODE] is shown as one
    warning node holding the whole matched text, between the nodes of the
    text before it and those of the content after it. *)
Theorem unknown_tag_block (content pre : str) (m : Match) (rest : str) :
  exec content [] = Some (pre, m, rest) ->
  tagName m <> lit "TABLE" -> tagName m <> lit "CODE" ->
  renderContent content
  = renderText (trim pre) ++ warning_block (whole m) :: renderContent rest.
Proof.
  intros He Ht Hc.
  destruct (exec_step _ He) as (_ & _ & Hr).
  now rewrite Hr, (unknown_tag_warning _ Ht Hc).
Qed.

Lemma unknown_tag_block_witness :
  renderContent (lit "[FOO]x[/FOO]") = [warning_block (lit "[FOO]x[/FOO]")].
Proof.
  refine (@unknown_tag_block (lit "[FOO]x[/FOO]") []
            (mkMatch (lit "[FOO]x[/FOO]") (lit "FOO") None (lit "x")) []
            eq_refl _ _); discriminate.
Defined.

(** X9. For a [CODE] block found in a content, the class of the [code]
    element is empty without a parameter and otherwise [language-] followed
    by the parameter in lower case, which is not empty and holds only
    lower-case letters, digits, [_] and [-]. *)
Theorem code_block_class (content pre : str) (m : Match) (rest : str) :
  exec content [] = Some (pre, m, rest) ->
  tagName m = lit "CODE" ->
  render_block m
  = code_node (language_class (tagParam m))
      (snd (code_block (tagParam m) (blockContent m)))
  /\ forall p, tagParam m = Some p ->
       toLowerCase p <> [] /\ forallb isLangChar (toLowerCase p) = true.
Proof.
  intros He Htag.
  apply exec_inv in He as (gap & tail & _ & _ & Hb & _).
  apply block_at_inv in Hb as (_ & _ & Hparam & _).
  split.
  - unfold render_block. rewrite Htag.
    change (JS.eqb (lit "CODE") (lit "TABLE")) with false.
    change (JS.eqb (lit "CODE") (lit "CODE")) with true. cbv iota.
    unfold code_block, language_class, code_node.
    destruct (tagParam m) as [p|]; [|reflexivity].
    destruct (Hparam p eq_refl) as [Hne _].
    destruct p as [|c p]; [contradiction|]. cbn [truthy].
    destruct (JS.eqb (toLowerCase (c :: p)) (lit "sql")
              && startsWith (lit "sql ")
                   (toLowerCase (trim (blockContent m))));
      [|reflexivity].
    now destruct (sql_prefix (trim (blockContent m))).
  - intros p Hp. destruct (Hparam p Hp) as [Hne Hall].
    split; [destruct p; [contradiction|discriminate]|].
    unfold toLowerCase. rewrite forallb_forall in Hall |- *.
    intros c Hc. apply in_map_iff in Hc as (c0 & <- & Hc0).
    apply lowerChar_lang, Hall, Hc0.
Qed.

Lemma code_block_class_witness :
  renderContent (lit "[CODE=Py-3]x = 1[/CODE]")
  = [code_node (lit "language-py-3") (lit "x = 1")].
Proof.
  set (m := mkMatch (lit "[CODE=Py-3]x = 1[/CODE]") (lit "CODE")
              (Some (lit "Py-3")) (lit "x = 1")).
  assert (He : exec (lit "[CODE=Py-3]x = 1[/CODE]") [] = Some ([], m, []))
    by reflexivity.
  pose proof (proj1 (code_block_class _ He eq_refl)) as Hb.
  rewrite renderContent_unfold, He, Hb. reflexivity.
Defined.

(** X10. The block that [renderContent] takes next is the leftmost one: the
    block expression matches at no position of the text skipped before
    it. *)
Theorem next_block_is_leftmost (content pre : str) (m : Match) (rest : str) :
  exec content [] = Some (pre, m, rest) ->
  forall g1 g2, pre = g1 ++ g2 -> g2 <> [] ->
                block_at (g2 ++ whole m ++ rest) = None.
Proof.
  intros He.
  apply exec_inv in He as (gap & tail & Hpre & _ & Hb & Hleft).
  cbn [app] in Hpre. subst gap.
  apply block_at_inv in Hb as (_ & _ & _ & _ & Hs & _). rewrite <- Hs.
  exact Hleft.
Qed.

Lemma next_block_is_leftmost_witness :
  block_at (lit "[A] [B]x[/B]") = None
  /\ block_at (lit "A] [B]x[/B]") = None.
Proof.
  assert (He : exec (lit "[A] [B]x[/B]") []
               = Some (lit "[A] ",
                       mkMatch (lit "[B]x[/B]") (lit "B") None (lit "x"), []))
    by reflexivity.
  split.
  - refine (@next_block_is_leftmost _ _ _ _ He [] (lit "[A] ") eq_refl _).
    discriminate.
  - refine (@next_block_is_leftmost _ _ _ _ He (lit "[") (lit "A] ")
              eq_refl _).
    discriminate.
Defined.

(** ** The shuffle reaches every order *)

Section ShuffleReach.
Variable A : Type.

Lemma update_length (i : nat) (x : A) (l : list A) :
  length (update i x l) = length l.
Proof.
  revert i. induction l as [|y l IH]; intros [|i]; cbn; try reflexivity.
  now rewrite IH.
Qed.

Lemma nth_error_update_eq (i : nat) (x : A) (l : list A) :
  i < length l -> nth_error (update i x l) i = Some x.
Proof.
  revert i. induction l as [|y l IH]; intros [|i] H; cbn in *; try lia.
  - reflexivity.
  - apply IH. lia.
Qed.

Lemma nth_error_update_neq (i j : nat) (x : A) (l : list A) :
  i <> j -> nth_error (update j x l) i = nth_error l i.
Proof.
  revert i j. induction l as [|y l IH]; intros [|i] [|j] H; cbn;
    try reflexivity; try congruence.
  apply IH. congruence.
Qed.

Lemma update_app (i : nat) (x : A) (p q : list A) :
  i < length p -> update i x (p ++ q) = update i x p ++ q.
Proof.
  revert i. induction p as [|y p IH]; intros [|i] H; cbn in *; try lia.
  - reflexivity.
  - rewrite IH by lia. reflexivity.
Qed.

Lemma swap_app (i j : nat) (p q : list A) :
  i < length p -> j < length p -> swap i j (p ++ q) = swap i j p ++ q.
Proof.
  intros Hi Hj. unfold swap.
  rewrite !nth_error_app1 by assumption.
  destruct (nth_error p i) as [ai|]; [|reflexivity].
  destruct (nth_error p j) as [aj|]; [|reflexivity].
  rewrite update_app by assumption.
  rewrite update_app by (rewrite update_length; assumption).
  reflexivity.
Qed.

Lemma swap_length (i j : nat) (l : list A) : length (swap i j l) = length l.
Proof. apply Permutation_length, swap_perm. Qed.

(** The swap puts the element of index [j] at index [i]. *)
Lemma swap_nth (i j : nat) (l : list A) (z : A) :
  i < length l -> nth_error l j = Some z ->
  nth_error (swap i j l) i = Some z.
Proof.
  intros Hi Hj. unfold swap.
  destruct (nth_error_in_range _ Hi) as [ai Hai]. rewrite Hai, Hj.
  destruct (Nat.eq_dec i j) as [<-|Hne].
  - rewrite nth_error_update_eq by (rewrite update_length; exact Hi).
    congruence.
  - rewrite nth_error_update_neq by exact Hne.
    now apply nth_error_update_eq.
Qed.

Lemma last_split (l : list A) (n : nat) (z : A) :
  length l = S n -> nth_error l n = Some z ->
  exists q, l = q ++ [z] /\ length q = n.
Proof.
  intros Hlen Hz. exists (firstn n l). split.
  - rewrite <- (firstn_skipn n l) at 1. f_equal.
    rewrite (skipn_nth_error _ _ Hz), skipn_all2 by lia. reflexivity.
  - rewrite length_firstn. lia.
Qed.

(** The loop from index [i] leaves what lies after index [i] alone. *)
Lemma shuffle_loop_app (rnd : nat -> nat) (i : nat) (p q : list A) :
  i < length p ->
  shuffle_loop rnd i (p ++ q) = shuffle_loop rnd i p ++ q.
Proof.
  revert p q. induction i as [|i IH]; intros p q Hlen; [reflexivity|].
  cbn [shuffle_loop].
  assert (Hj : rnd (S i) mod (S i + 1) < length p).
  { assert (rnd (S i) mod (S i + 1) < S i + 1)
      by (apply Nat.mod_upper_bound; lia).
    lia. }
  rewrite swap_app by (try exact Hj; lia).
  apply IH. rewrite swap_length. lia.
Qed.

(** Only the draws at the indices from 1 to [i] count. *)
Lemma shuffle_loop_ext (rnd1 rnd2 : nat -> nat) (i : nat) (l : list A) :
  (forall k, 1 <= k <= i -> rnd1 k = rnd2 k) ->
  shuffle_loop rnd1 i l = shuffle_loop rnd2 i l.
Proof.
  revert l. induction i as [|i IH]; intros l Hext; [reflexivity|].
  cbn [shuffle_loop]. rewrite (Hext (S i)) by lia.
  apply IH. intros k Hk. apply Hext. lia.
Qed.

Lemma shuffle_loop_reaches (i : nat) :
  forall (l target : list A),
    length l = S i -> Permutation l target ->
    exists rnd, shuffle_loop rnd i l = target.
Proof.
  induction i as [|i IH]; intros l target Hlen Hperm.
  - exists (fun _ => 0). cbn [shuffle_loop].
    destruct l as [|a [|b l]]; try discriminate.
    symmetry. now apply Permutation_length_1_inv.
  - assert (Hne : target <> []).
    { intros ->. apply Permutation_length in Hperm.
      rewrite Hlen in Hperm. discriminate. }
    destruct (exists_last Hne) as (t' & z & ->).
    assert (Hin : In z l).
    { apply (Permutation_in z (Permutation_sym Hperm)).
      apply in_or_app. right. now left. }
    apply In_nth_error in Hin as [j Hj].
    assert (Hjlt : j < length l) by (apply nth_error_Some; congruence).
    assert (Hmod : j mod (S i + 1) = j)
      by (apply Nat.mod_small; lia).
    assert (Hz : nth_error (swap (S i) j l) (S i) = Some z)
      by (apply swap_nth; [lia|exact Hj]).
    destruct (last_split (swap (S i) j l) (n := S i))
      with (z := z) as (q & Hq & Hlq);
      [rewrite swap_length; exact Hlen|exact Hz|].
    assert (Hpq : Permutation q t').
    { apply Permutation_app_inv_r with (l := [z]). rewrite <- Hq.
      eapply perm_trans; [apply swap_perm|exact Hperm]. }
    destruct (IH q t' Hlq Hpq) as [rnd' Hrnd'].
    exists (fun k => if k =? S i then j else rnd' k).
    cbn [shuffle_loop]. rewrite Nat.eqb_refl, Hmod, Hq.
    rewrite shuffle_loop_app by lia. f_equal.
    rewrite <- Hrnd'. apply shuffle_loop_ext.
    intros k Hk. destruct (Nat.eqb_spec k (S i)); [lia|reflexivity].
Qed.

End ShuffleReach.

(** X11. The shuffle can give every order of the cards: for every
    permutation of an array there are draws of [Math.random] for which
    [shuffleArray] ends with this permutation. *)
Theorem shuffleArray_reaches_every_order (A : Type) (array target : list A) :
  Permutation array target ->
  exists rnd, shuffleArray rnd array = target.
Proof.
  intros Hperm. unfold shuffleArray.
  destruct array as [|a array].
  - apply Permutation_nil in Hperm. subst target. now exists (fun _ => 0).
  - cbn [length]. rewrite Nat.sub_succ, Nat.sub_0_r.
    now apply shuffle_loop_reaches.
Qed.

Lemma shuffleArray_reaches_every_order_witness :
  exists rnd, shuffleArray rnd [card1; card2] = [card2; card1].
Proof.
  apply shuffleArray_reaches_every_order. apply perm_swap.
Defined.

(** ** More on the study flow *)

Section FlowFacts.

Lemma firstn_S_nth_error (A : Type) (l : list A) (n : nat) (x : A) :
  nth_error l n = Some x -> firstn (S n) l = firstn n l ++ [x].
Proof.
  revert n. induction l as [|y l IH]; intros [|n] H; cbn in *;
    try discriminate.
  - now injection H as ->.
  - f_equal. now apply IH.
Qed.

(** An event that is not taken leaves the state as it is. *)
Lemma dispatch_idle (ev : event) (st : State) :
  listening st = false -> pending st = 0 -> dispatch ev st = st.
Proof.
  intros Hl Hp. destruct ev; unfold dispatch, actionEnabled, ratingEnabled;
    rewrite ?Hl, ?Hp; reflexivity.
Qed.

Lemma flow_initialize (rnd : nat -> nat) (due : list Card) (st0 : State) :
  fresh st0 -> flow_inv (initializeStudySession rnd due st0).
Proof.
  intros Hfresh. destruct due as [|d due].
  - destruct Hfresh as (Hc & Hi & Hb & Hl & Hp & Hlog).
    unfold flow_inv, initializeStudySession, terminal. cbn.
    rewrite Hl, Hb, Hp, Hi, Hlog. cbn.
    repeat split; try discriminate; try lia. constructor.
  - assert (Hdue : d :: due <> []) by discriminate.
    destruct (initialize_presenting rnd Hfresh Hdue)
      as ((Hl & Hi & Hk & Hb & Hah & Had & Hrh & Hrd & Hp)
          & Hcards & Hshown & Hposted).
    unfold flow_inv, terminal. rewrite Hi, Hb, Hp, Hposted, Hshown.
    split; [discriminate|].
    split; [intros _ Ht; apply Nat.leb_le in Ht; lia|].
    split; [lia|]. split; [reflexivity|]. split; [cbn; lia|constructor].
Qed.

Lemma posted_snoc_shown (l : list effect) (c : Card) :
  posted (l ++ [Shown c]) = posted l.
Proof. rewrite posted_app. cbn. apply app_nil_r. Qed.

Lemma shown_snoc_posted (l : list effect) (i : N) (r : Rating) :
  shown (l ++ [Posted i r]) = shown l.
Proof. rewrite shown_app. cbn. apply app_nil_r. Qed.

Lemma flow_dispatch (ev : event) (st : State) :
  session_inv st -> flow_inv st -> flow_inv (dispatch ev st).
Proof.
  intros Hsi Hflow. unfold session_inv in Hsi.
  destruct (listening st) eqn:Hl;
    [|now rewrite dispatch_idle].
  destruct Hsi as (Hhid & Hle & Hpend & Hen).
  destruct Hflow as (Hact & Hterm & Hidx & Hshown & Hpost & Hids).
  specialize (Hact Hl). specialize (Hterm Hl).
  destruct ev as [|rating|o]; unfold dispatch.
  - destruct (actionEnabled st); [|unfold flow_inv; rewrite Hl; tauto].
    unfold handleActionClick.
    destruct (isBackVisible st) eqn:Hb;
      [unfold flow_inv; rewrite Hl, Hb; tauto|].
    unfold flow_inv, terminal in *. cbn -[firstn shown posted].
    split; [reflexivity|]. tauto.
  - destruct (ratingEnabled st) eqn:Hgate;
      [|unfold flow_inv; rewrite Hl; tauto].
    unfold ratingEnabled in Hgate. rewrite Hl in Hgate. cbn [andb] in Hgate.
    apply negb_true_iff in Hgate.
    unfold handleRatingClick.
    destruct (nth_error (cards st) (currentCardIndex st)) as [card|] eqn:Hc;
      [|unfold flow_inv; rewrite Hl; tauto].
    assert (Hzero : pending st = 0).
    { destruct (pending st) as [|[|n]]; [reflexivity| |lia].
      destruct Hpend as [Hd _]; [reflexivity|congruence]. }
    specialize (Hen Hgate).
    unfold flow_inv, terminal in *. cbn -[firstn shown posted].
    rewrite shown_snoc_posted, posted_app, length_app. cbn.
    split; [intros _; exact Hact|].
    split; [intros _ Ht; apply Nat.leb_le in Ht; lia|].
    split; [exact Hidx|]. split; [exact Hshown|]. split; [lia|].
    apply Forall_app. split; [exact Hids|].
    constructor; [|constructor].
    exists card. split; [now apply nth_error_In in Hc|reflexivity].
  - destruct (Nat.ltb_spec 0 (pending st)) as [Hpos|Hz];
      [|unfold flow_inv; rewrite Hl; tauto].
    assert (Hone : pending st = 1) by lia.
    destruct (Hpend Hone) as [Hrd Hlt].
    destruct o as [|message]; unfold reviewSettled.
    + unfold loadCard. cbn [cards].
      destruct (nth_error (cards st) (S (currentCardIndex st)))
        as [next|] eqn:Hnext.
      * assert (S (currentCardIndex st) < length (cards st))
          by (apply nth_error_Some; congruence).
        unfold flow_inv, terminal. cbn -[firstn shown posted].
        rewrite shown_app, posted_snoc_shown, Hshown, Hone.
        cbn [shown flat_map app].
        rewrite (firstn_S_nth_error _ _ Hnext).
        split; [discriminate|].
        split; [intros _ Ht; apply Nat.leb_le in Ht; lia|].
        split; [lia|]. split; [reflexivity|]. split; [cbn; lia|exact Hids].
      * apply nth_error_None in Hnext.
        unfold flow_inv, terminal. cbn -[firstn shown posted].
        rewrite Hone, Hrd, Hshown.
        split; [intros _; exact Hact|].
        split; [intros _ _; now split|].
        split; [lia|].
        split; [rewrite !firstn_all2 by lia; reflexivity|].
        split; [cbn; lia|exact Hids].
    + unfold flow_inv, terminal. cbn -[firstn shown posted]. rewrite Hone.
      split; [intros _; exact Hact|].
      split; [intros _ Ht; apply Nat.leb_le in Ht; lia|].
      split; [exact Hidx|]. split; [exact Hshown|].
      split; [cbn; lia|exact Hids].
Qed.

Lemma flow_run (evs : list event) (st : State) :
  session_inv st -> flow_inv st -> flow_inv (run evs st).
Proof.
  revert st. induction evs as [|ev evs IH]; intros st Hsi Hflow; cbn;
    [exact Hflow|].
  apply IH; [now apply inv_dispatch|now apply flow_dispatch].
Qed.

Lemma reachable_flow (st : State) : reachable st -> flow_inv st.
Proof.
  intros (st0 & rnd & due & evs & Hfresh & ->).
  apply flow_run; [now apply inv_initialize|now apply flow_initialize].
Qed.

Lemma reachable_dispatch (ev : event) (st : State) :
  reachable st -> reachable (dispatch ev st).
Proof.
  intros (st0 & rnd & due & evs & Hfresh & ->).
  exists st0, rnd, due, (evs ++ [ev]). split; [exact Hfresh|].
  now rewrite run_app.
Qed.

(** One event at the end of a session: the cards, the index and the effects
    stay; a click on a rating button and the end of a review change
    nothing, and neither does a click on the action button once the back is
    revealed. *)
Lemma terminal_step (ev : event) (st : State) :
  reachable st -> terminal st = true ->
  cards (dispatch ev st) = cards st
  /\ currentCardIndex (dispatch ev st) = currentCardIndex st
  /\ log (dispatch ev st) = log st
  /\ (isBackVisible st = true -> dispatch ev st = st)
  /\ (ev <> ClickAction -> dispatch ev st = st).
Proof.
  intros Hreach Hterm.
  pose proof (reachable_inv Hreach) as Hsi.
  pose proof (reachable_flow Hreach) as (_ & Hend & _).
  unfold session_inv in Hsi.
  destruct (listening st) eqn:Hl;
    [|rewrite dispatch_idle by assumption; tauto].
  destruct (Hend eq_refl Hterm) as (Hrd & Hp).
  destruct ev as [|rating|o]; unfold dispatch, ratingEnabled.
  - destruct (actionEnabled st); [|tauto].
    unfold handleActionClick.
    destruct (isBackVisible st); [tauto|].
    cbn. repeat split; [discriminate|congruence].
  - rewrite Hl, Hrd. cbn. tauto.
  - rewrite Hp. cbn. tauto.
Qed.

End FlowFacts.

(** X12. At the end of a session, when the index is past the last card,
    whatever events follow: the session stays at its end, the cards and the
    index stay, no card is shown and no review is posted any more, none is
    awaited, and a click on a rating button or the end of a review changes
    nothing.  When the back of the last card was revealed no event changes
    anything at all; otherwise a click on the action button can still
    reveal it. *)
Theorem complete_posts_nothing_more (st : State) (evs : list event) :
  reachable st -> terminal st = true ->
  let st' := run evs st in
  terminal st' = true
  /\ cards st' = cards st
  /\ currentCardIndex st' = currentCardIndex st
  /\ log st' = log st
  /\ (forall rating, dispatch (ClickRating rating) st' = st')
  /\ (forall o, dispatch (Settle o) st' = st')
  /\ (isBackVisible st = true -> st' = st).
Proof.
  revert st. induction evs as [|ev evs IH]; intros st Hreach Hterm.
  - cbn [run fold_left].
    split; [exact Hterm|]. do 3 (split; [reflexivity|]).
    split; [|split; [|reflexivity]].
    + intros rating.
      apply (proj2 (proj2 (proj2 (proj2
        (@terminal_step (ClickRating rating) st Hreach Hterm))))).
      discriminate.
    + intros o.
      apply (proj2 (proj2 (proj2 (proj2
        (@terminal_step (Settle o) st Hreach Hterm))))).
      discriminate.
  - destruct (@terminal_step ev st Hreach Hterm)
      as (Hc & Hi & Hlog & Hvis & _).
    assert (Hterm1 : terminal (dispatch ev st) = true).
    { unfold terminal in *. now rewrite Hc, Hi. }
    destruct (IH (dispatch ev st) (reachable_dispatch ev Hreach) Hterm1)
      as (Ht & Hc' & Hi' & Hlog' & Hr & Hs & Hv).
    change (run (ev :: evs) st) with (run evs (dispatch ev st)).
    cbv zeta in *.
    split; [exact Ht|]. split; [congruence|]. split; [congruence|].
    split; [congruence|]. split; [exact Hr|]. split; [exact Hs|].
    intros Hb. specialize (Hvis Hb). rewrite Hvis in *. now apply Hv.
Qed.

(** After the two cards were revealed and rated, and after the two cards
    were rated without being revealed. *)
Lemma complete_posts_nothing_more_witness :
  let start := initializeStudySession (fun _ => 0) [card1; card2] blankPage in
  let st := run (script [good; hard]) start in
  let su := run (rate good Accepted ++ rate hard Accepted) start in
  run [ClickAction; ClickRating good; Settle Accepted] st = st
  /\ log (run [ClickAction; ClickRating good; Settle Accepted] su) = log su.
Proof.
  intros start st su.
  assert (Hst : reachable st).
  { exists blankPage, (fun _ => 0), [card1; card2], (script [good; hard]).
    split; [repeat split|reflexivity]. }
  assert (Hsu : reachable su).
  { exists blankPage, (fun _ => 0), [card1; card2],
      (rate good Accepted ++ rate hard Accepted).
    split; [repeat split|reflexivity]. }
  split.
  - apply (@complete_posts_nothing_more st
             [ClickAction; ClickRating good; Settle Accepted] Hst eq_refl).
    reflexivity.
  - apply (@complete_posts_nothing_more su
             [ClickAction; ClickRating good; Settle Accepted] Hsu eq_refl).
Defined.

(** X13. With no due card the script shows the end-of-session panel with
    the caught-up texts, hides the study area and the controls, attaches
    no listener, and no event changes the page afterwards. *)
Theorem empty_session_is_inert (rnd : nat -> nat) (st0 : State)
  (evs : list event) :
  fresh st0 ->
  let st := initializeStudySession rnd [] st0 in
  completePage st = true /\ caughtUp st = true /\ listening st = false
  /\ log st = [] /\ run evs st = st.
Proof.
  intros (Hc & Hi & Hb & Hl & Hp & Hlog) st.
  assert (Hls : listening st = false) by exact Hl.
  assert (Hps : pending st = 0) by exact Hp.
  repeat split; try assumption.
  clearbody st. induction evs as [|ev evs IH]; [reflexivity|].
  cbn [run fold_left]. rewrite dispatch_idle by assumption. exact IH.
Qed.

Lemma empty_session_is_inert_witness :
  run [ClickAction; ClickRating good; Settle Accepted]
    (initializeStudySession (fun _ => 0) [] blankPage)
  = initializeStudySession (fun _ => 0) [] blankPage.
Proof.
  assert (Hfresh : fresh blankPage) by (repeat split).
  exact (proj2 (proj2 (proj2 (proj2
    (@empty_session_is_inert (fun _ => 0) blankPage
       [ClickAction; ClickRating good; Settle Accepted] Hfresh))))).
Defined.

(** X14. In every state of a session the index is at most the number of
    cards, and the cards shown so far are the cards of the shuffled list up
    to the index, in the order of the list: no card is skipped or shown
    twice. *)
Theorem cards_shown_in_order (st : State) :
  reachable st ->
  currentCardIndex st <= length (cards st)
  /\ shown (log st) = firstn (S (currentCardIndex st)) (cards st).
Proof.
  intros Hreach.
  pose proof (reachable_flow Hreach) as (_ & _ & Hidx & Hshown & _).
  now split.
Qed.

Lemma cards_shown_in_order_witness :
  let st := run (script [good])
              (initializeStudySession (fun _ => 0) [card1; card2] blankPage) in
  shown (log st) = [card2; card1].
Proof.
  intros st.
  assert (Hreach : reachable st).
  { exists blankPage, (fun _ => 0), [card1; card2], (script [good]).
    split; [repeat split|reflexivity]. }
  exact (proj2 (cards_shown_in_order Hreach)).
Defined.

(** X15. In every state of a session at most one review awaits its
    response; the index plus the awaited reviews is at most the number of
    reviews posted (the index never moves without a posted review); and
    every review was posted for a card of the session. *)
Theorem reviews_one_at_a_time (st : State) :
  reachable st ->
  pending st <= 1
  /\ currentCardIndex st + pending st <= length (posted (log st))
  /\ Forall (fun ir => exists c, In c (cards st) /\ id c = fst ir)
       (posted (log st)).
Proof.
  intros Hreach.
  pose proof (reachable_inv Hreach) as Hsi.
  pose proof (reachable_flow Hreach) as (_ & _ & _ & _ & Hpost & Hids).
  split; [|now split].
  unfold session_inv in Hsi.
  destruct (listening st); [tauto|lia].
Qed.

Lemma reviews_one_at_a_time_witness :
  let st := run (reveal ++ [ClickRating good; ClickRating hard])
              (initializeStudySession (fun _ => 0) [card1; card2] blankPage) in
  pending st <= 1 /\ posted (log st) = [(2%N, good)].
Proof.
  intros st.
  assert (Hreach : reachable st).
  { exists blankPage, (fun _ => 0), [card1; card2],
      (reveal ++ [ClickRating good; ClickRating hard]).
    split; [repeat split|reflexivity]. }
  split; [exact (proj1 (reviews_one_at_a_time Hreach))|reflexivity].
Defined.

Section RunFacts.

Lemma loadCard_keeps (k : nat) (st : State) :
  cards (loadCard k st) = cards st
  /\ currentCardIndex (loadCard k st) = currentCardIndex st
  /\ extends (log st) (log (loadCard k st))
  /\ errorMessageHidden (loadCard k st) = errorMessageHidden st
  /\ listening (loadCard k st) = listening st.
Proof.
  unfold loadCard. destruct (nth_error (cards st) k) as [card|]; cbn.
  - repeat split. now exists [Shown card].
  - repeat split. exists []. now rewrite app_nil_r.
Qed.

Lemma dispatch_keeps (ev : event) (st : State) :
  currentCardIndex st <= currentCardIndex (dispatch ev st)
  /\ cards (dispatch ev st) = cards st
  /\ extends (log st) (log (dispatch ev st))
  /\ (errorMessageHidden st = false ->
      errorMessageHidden (dispatch ev st) = false)
  /\ listening (dispatch ev st) = listening st.
Proof.
  assert (Hsame : currentCardIndex st <= currentCardIndex st
                  /\ cards st = cards st /\ extends (log st) (log st)
                  /\ (errorMessageHidden st = false ->
                      errorMessageHidden st = false)
                  /\ listening st = listening st).
  { repeat split; try lia; try tauto. exists []. now rewrite app_nil_r. }
  destruct ev as [|rating|o]; unfold dispatch.
  - destruct (actionEnabled st); [|exact Hsame].
    unfold handleActionClick. destruct (isBackVisible st); [exact Hsame|].
    cbn. tauto.
  - destruct (ratingEnabled st); [|exact Hsame].
    unfold handleRatingClick.
    destruct (nth_error (cards st) (currentCardIndex st)) as [card|];
      [|exact Hsame].
    cbn. repeat split; try lia; try tauto.
    now exists [Posted (id card) rating].
  - destruct (0 <? pending st); [|exact Hsame].
    destruct o as [|message]; unfold reviewSettled.
    + match goal with
      | |- context [loadCard ?k ?s] =>
          destruct (loadCard_keeps k s) as (Hc & Hi & Hlog & He & Hl)
      end.
      rewrite Hc, Hi, He, Hl. cbn in *. repeat split; try lia; try tauto.
    + cbn. repeat split; try lia. exists []. now rewrite app_nil_r.
Qed.

Lemma extends_trans (A : Type) (l1 l2 l3 : list A) :
  extends l1 l2 -> extends l2 l3 -> extends l1 l3.
Proof.
  intros [m1 ->] [m2 ->]. exists (m1 ++ m2). now rewrite app_assoc.
Qed.

End RunFacts.

(** X16. Whatever the state and the events: the index never goes back, the
    list of cards is never changed, the listeners stay as they are, what
    was shown and posted is never taken back, and an error message, once
    displayed, is never hidden again. *)
Theorem run_only_moves_forward (evs : list event) (st : State) :
  currentCardIndex st <= currentCardIndex (run evs st)
  /\ cards (run evs st) = cards st
  /\ extends (log st) (log (run evs st))
  /\ (errorMessageHidden st = false ->
      errorMessageHidden (run evs st) = false)
  /\ listening (run evs st) = listening st.
Proof.
  revert st. induction evs as [|ev evs IH]; intros st.
  - cbn. repeat split; try lia; try tauto. exists []. now rewrite app_nil_r.
  - cbn [run fold_left].
    destruct (dispatch_keeps ev st) as (Hi & Hc & Hlog & He & Hl).
    destruct (IH (dispatch ev st)) as (Hi' & Hc' & Hlog' & He' & Hl').
    fold (run evs (dispatch ev st)).
    split; [lia|]. split; [congruence|].
    split; [exact (extends_trans Hlog Hlog')|].
    split; [tauto|congruence].
Qed.

Lemma run_only_moves_forward_witness :
  let st := run (reveal ++ rate hard (Rejected (lit "HTTP 500")))
              (initializeStudySession (fun _ => 0) [card1; card2] blankPage) in
  errorMessageHidden (run (rate good Accepted ++ script [good]) st) = false.
Proof.
  intros st.
  exact (proj1 (proj2 (proj2 (proj2
    (run_only_moves_forward (rate good Accepted ++ script [good]) st))))
    eq_refl).
Defined.

Lemma rating_click_idle (st : State) (rating : Rating) :
  ratingEnabled st = false
  \/ nth_error (cards st) (currentCardIndex st) = None ->
  dispatch (ClickRating rating) st = st.
Proof.
  intros [H|H]; unfold dispatch, handleRatingClick; rewrite H;
    [reflexivity|now destruct (ratingEnabled st)].
Qed.

Lemma action_click_idle (st : State) :
  actionEnabled st = false \/ isBackVisible st = true ->
  dispatch ClickAction st = st.
Proof.
  intros [H|H]; unfold dispatch, handleActionClick; rewrite H;
    [reflexivity|now destruct (actionEnabled st)].
Qed.

(** X17. A second click in a row is absorbed: two clicks on a rating
    button, whatever the ratings, do what the first one does (one review
    posted at most), and two clicks on the action button do what one
    does. *)
Theorem repeated_click_absorbed (st : State) (rating1 rating2 : Rating) :
  dispatch (ClickRating rating2) (dispatch (ClickRating rating1) st)
  = dispatch (ClickRating rating1) st
  /\ dispatch ClickAction (dispatch ClickAction st) = dispatch ClickAction st.
Proof.
  split.
  - destruct (ratingEnabled st) eqn:Hgate.
    + destruct (nth_error (cards st) (currentCardIndex st)) as [card|] eqn:Hc.
      * set (s1 := dispatch (ClickRating rating1) st).
        assert (Hoff : ratingEnabled s1 = false).
        { unfold s1, dispatch, handleRatingClick. rewrite Hgate, Hc.
          unfold ratingEnabled. cbn. apply andb_false_r. }
        apply rating_click_idle. now left.
      * rewrite (@rating_click_idle st rating1) by now right.
        apply rating_click_idle. now right.
    + rewrite (@rating_click_idle st rating1) by now left.
      apply rating_click_idle. now left.
  - destruct (actionEnabled st) eqn:Hgate.
    + destruct (isBackVisible st) eqn:Hb.
      * rewrite (@action_click_idle st) by now right.
        apply action_click_idle. now right.
      * set (s1 := dispatch ClickAction st).
        assert (Hvis : isBackVisible s1 = true).
        { unfold s1, dispatch, handleActionClick. rewrite Hgate, Hb.
          reflexivity. }
        apply action_click_idle. now right.
    + rewrite (@action_click_idle st) by now left.
      apply action_click_idle. now left.
Qed.

Lemma rate_unfold (st : State) (card : Card) (rating : Rating)
  (o : outcome) :
  ratingEnabled st = true ->
  nth_error (cards st) (currentCardIndex st) = Some card ->
  run (rate rating o) st = reviewSettled o (handleRatingClick rating st).
Proof.
  intros Hgate Hcard. unfold run, rate. cbn [fold_left].
  unfold dispatch at 2. rewrite Hgate.
  unfold dispatch, handleRatingClick. rewrite Hcard. reflexivity.
Qed.

Lemma rate_rejected (st : State) (card : Card) (rating : Rating)
  (message : str) :
  ratingEnabled st = true ->
  nth_error (cards st) (currentCardIndex st) = Some card ->
  let st' := run (rate rating (Rejected message)) st in
  cards st' = cards st /\ currentCardIndex st' = currentCardIndex st
  /\ ratingEnabled st' = true
  /\ log st' = log st ++ [Posted (id card) rating]
  /\ errorMessage st' = Some (lit "Error submitting review: " ++ message)
  /\ errorMessageHidden st' = false.
Proof.
  intros Hgate Hcard st'. subst st'. rewrite (@rate_unfold st card rating _ Hgate Hcard).
  unfold ratingEnabled in *. unfold handleRatingClick. rewrite Hcard.
  destruct st; cbn in *.
  apply andb_true_iff in Hgate as [Hgate _]. rewrite Hgate.
  repeat split.
Qed.

Lemma rate_accepted (st : State) (card : Card) (rating : Rating) :
  ratingEnabled st = true ->
  nth_error (cards st) (currentCardIndex st) = Some card ->
  let st' := run (rate rating Accepted) st in
  currentCardIndex st' = S (currentCardIndex st)
  /\ log st'
     = log st ++ Posted (id card) rating
         :: match nth_error (cards st) (S (currentCardIndex st)) with
            | Some next => [Shown next]
            | None => []
            end
  /\ errorMessage st' = errorMessage st
  /\ errorMessageHidden st' = errorMessageHidden st.
Proof.
  intros Hgate Hcard st'. subst st'. rewrite (@rate_unfold st card rating _ Hgate Hcard).
  unfold handleRatingClick. rewrite Hcard.
  destruct st; cbn -[nth_error] in *. unfold loadCard. cbn -[nth_error].
  destruct (nth_error cards0 (S currentCardIndex0)) as [next|];
    cbn; rewrite <- ?app_assoc; repeat split.
Qed.

(** X18. After a failed review a new rating of the same card is accepted:
    the index moves on by one, two reviews were posted for this card and
    none for another, the next card, when there is one, is shown, and the
    error message of the failure stays displayed. *)
Theorem retry_after_failure (st : State) (card : Card)
  (rating1 rating2 : Rating) (message : str) :
  ratingEnabled st = true ->
  nth_error (cards st) (currentCardIndex st) = Some card ->
  let st' := run (rate rating1 (Rejected message) ++ rate rating2 Accepted)
               st in
  currentCardIndex st' = S (currentCardIndex st)
  /\ log st'
     = log st ++ [Posted (id card) rating1; Posted (id card) rating2]
         ++ match nth_error (cards st) (S (currentCardIndex st)) with
            | Some next => [Shown next]
            | None => []
            end
  /\ errorMessage st' = Some (lit "Error submitting review: " ++ message)
  /\ errorMessageHidden st' = false.
Proof.
  intros Hgate Hcard st'. subst st'. rewrite run_app.
  destruct (@rate_rejected st card rating1 message Hgate Hcard)
    as (Hc1 & Hi1 & Hgate1 & Hlog1 & Hmsg1 & Hhid1).
  set (st1 := run (rate rating1 (Rejected message)) st) in *.
  clearbody st1.
  assert (Hcard1 : nth_error (cards st1) (currentCardIndex st1) = Some card)
    by (now rewrite Hc1, Hi1).
  destruct (@rate_accepted st1 card rating2 Hgate1 Hcard1)
    as (Hi2 & Hlog2 & Hmsg2 & Hhid2).
  rewrite Hi2, Hlog2, Hmsg2, Hhid2, Hi1, Hc1, Hlog1, <- app_assoc.
  repeat split; assumption.
Qed.

Lemma retry_after_failure_witness :
  let st := run reveal
              (initializeStudySession (fun _ => 0) [card1; card2] blankPage) in
  let st' := run (rate hard (Rejected (lit "HTTP 500")) ++ rate good Accepted)
               st in
  currentCardIndex st' = 1
  /\ posted (log st') = [(2%N, hard); (2%N, good)]
  /\ errorMessageHidden st' = false.
Proof.
  intros st st'.
  destruct (@retry_after_failure st card2 hard good (lit "HTTP 500")
              eq_refl eq_refl) as (Hi & Hlog & _ & He).
  fold st' in Hi, Hlog, He.
  split; [exact Hi|]. split; [rewrite Hlog; reflexivity|exact He].
Defined.

(** ** The start of the study page *)

Lemma showFailure_inert (message : str) (st0 : State) (evs : list event) :
  fresh st0 ->
  let st := showFailure message st0 in
  studyAreaHidden st = true /\ controlsHidden st = true
  /\ errorMessageHidden st = false /\ errorMessage st <> None
  /\ log st = [] /\ listening st = false
  /\ run evs st = st.
Proof.
  intros (Hc & Hi & Hb & Hl & Hp & Hlog) st.
  assert (Hls : listening st = false) by exact Hl.
  assert (Hps : pending st = 0) by exact Hp.
  assert (Hlogs : log st = []) by exact Hlog.
  split; [reflexivity|]. split; [reflexivity|]. split; [reflexivity|].
  split; [discriminate|]. split; [exact Hlogs|]. split; [exact Hls|].
  clearbody st. induction evs as [|ev evs IH]; [reflexivity|].
  cbn [run fold_left]. rewrite dispatch_idle by assumption. exact IH.
Qed.

(** X20. When the deck parameter is missing or empty, or the decks or the
    due cards cannot be fetched, the page ends in an error state: the study
    area and the controls are hidden, the error message is displayed, the
    title is an error title, no card was shown, no review posted, no
    listener is attached, and no event changes the page afterwards. *)
Theorem failed_start_is_inert (sameDeck : N -> str -> bool)
  (deckId : option str) (decks : fetched (list Deck))
  (due : fetched (list Card)) (rnd : nat -> nat) (pg : StudyPage)
  (evs : list event) :
  fresh (session pg) ->
  startFails deckId decks due = true ->
  let st := session (startStudyPage sameDeck deckId decks due rnd pg) in
  studyAreaHidden st = true /\ controlsHidden st = true
  /\ errorMessageHidden st = false /\ errorMessage st <> None
  /\ (deckTitle (startStudyPage sameDeck deckId decks due rnd pg)
      = Some (lit "Error")
      \/ deckTitle (startStudyPage sameDeck deckId decks due rnd pg)
         = Some (lit "Error Loading Deck"))
  /\ log st = [] /\ listening st = false
  /\ run evs st = st.
Proof.
  intros Hfresh Hfail.
  assert (Hcases :
    startStudyPage sameDeck deckId decks due rnd pg = noDeckSelected pg
    \/ startStudyPage sameDeck deckId decks due rnd pg = loadFailed pg).
  { unfold startStudyPage, startFails in *.
    destruct deckId as [deck|]; [|now left].
    destruct decks as [allDecks|].
    - destruct due as [dueCards|].
      + apply negb_true_iff in Hfail. rewrite Hfail. now left.
      + destruct (truthy deck); [now right|now left].
    - destruct (truthy deck); [now right|now left]. }
  destruct Hcases as [Heq|Heq]; rewrite Heq; cbv zeta;
    cbn [session deckTitle noDeckSelected loadFailed];
    match goal with
    | |- context [showFailure ?msg (session pg)] =>
        destruct (@showFailure_inert msg (session pg) evs Hfresh)
          as (H1 & H2 & H3 & H4 & H5 & H6 & H7)
    end;
    (split; [exact H1|]); (split; [exact H2|]); (split; [exact H3|]);
    (split; [exact H4|]); (split; [tauto|]); (split; [exact H5|]);
    (split; [exact H6|exact H7]).
Qed.

Lemma failed_start_is_inert_witness :
  let pg := startStudyPage (fun _ _ => false) (Some (lit "7")) FetchFailed
              FetchFailed (fun _ => 0) (mkStudyPage blankPage None None) in
  run [ClickAction; ClickRating good] (session pg) = session pg.
Proof.
  intros pg.
  assert (Hfresh : fresh (session (mkStudyPage blankPage None None)))
    by (repeat split).
  exact (proj2 (proj2 (proj2 (proj2 (proj2 (proj2 (proj2
    (@failed_start_is_inert (fun _ _ => false) (Some (lit "7")) FetchFailed
       FetchFailed (fun _ => 0) (mkStudyPage blankPage None None)
       [ClickAction; ClickRating good] Hfresh eq_refl)))))))).
Defined.
